(** * react-intl [components/provider.tsx]: configuration normalizer,
      change-detection gate, context builder and rich-text key assignment.

    The development is a shallow embedding of the TypeScript module.  The
    JavaScript store is explicit: objects, arrays and functions live in
    a heap of cells addressed by locations, so that reference equality
    ([===] on objects), freshness of newly created objects and in-place
    assignment ([acc[k] = ...], [resolvedConfig.locale = ...]) are what
    they are in the source.  Calls that leave the module (the [onError]
    callback, [createFormatters]) are recorded in a chronological log. *)

From stdpp Require Import gmap strings list fin_maps pretty.
From Stdlib Require Import ZArith.

Local Open Scope Z_scope.
Local Open Scope string_scope.
Local Open Scope list_scope.

(** ** Values and the store *)

Abbreviation loc := positive.

(** JavaScript values.  Numbers are restricted to integers: no field of
    [OptionalIntlConfig] has type [number], and substitution values are
    only ever passed through. *)
Inductive value :=
  | VUndefined
  | VNull
  | VBoolean (b : bool)
  | VNumber (n : Z)
  | VString (s : string)
  | VRef (l : loc).

#[global] Instance value_eq_dec : EqDecision value.
Proof. solve_decision. Defined.

(** The functions of [@formatjs/intl] that [createIntl] binds into the
    shape, and the module's own [formatMessage] wrapper. *)
Inductive imported :=
  | formatNumber_ | formatNumberToParts_ | formatRelativeTime_
  | formatDate_ | formatDateToParts_ | formatTime_ | formatTimeToParts_
  | formatPlural_ | formatMessage_ | formatList_ | formatDisplayName_.

(** What is known of a function object. *)
Inductive closure :=
  | Opaque
      (* a function defined outside the module: callbacks, components *)
  | KeyedParts (fn : value)
      (* the result of [assignUniqueKeysToParts(fn)] *)
  | Accessor (kind : string) (cache : value)
      (* a formatter accessor made by [createFormatters(cache)] *)
  | Bound (target : imported) (args : list value).
      (* [target.bind(null, ...args)] *)

(** Heap cells.  The properties of an object are listed in own-property
    order; well-formed objects have pairwise distinct property names. *)
Inductive cell :=
  | CObject (props : list (string * value))
  | CArray (elems : list value)
  | CFunction (f : closure).

(** The two diagnostic classes of [@formatjs/intl], each carrying the
    message given to its constructor. *)
Inductive diagnostic :=
  | InvalidConfigError (message : string)
  | MissingDataError (message : string).

Inductive event :=
  | OnError (callee : value) (err : diagnostic)
  | CreateFormatters (cache : value).

Record world := World { heap : gmap loc cell; log : list event }.

Inductive exn := TypeError | RangeError | Foreign (v : value).

Inductive outcome (A : Type) :=
  | Normal (a : A) (w : world)
  | Thrown (e : exn) (w : world).
Arguments Normal {A} a w.
Arguments Thrown {A} e w.

(** ** The effect monad: store and log passing, with exceptions *)

Definition M (A : Type) : Type := world → outcome A.

#[global] Instance M_ret : MRet M := λ A a w, Normal a w.
#[global] Instance M_bind : MBind M := λ A B f m w,
  match m w with
  | Normal a w' => f a w'
  | Thrown e w' => Thrown e w'
  end.

Definition throw {A} (e : exn) : M A := λ w, Thrown e w.

Definition emit (e : event) : M () :=
  λ w, Normal () (World (heap w) ((log w ++ [e])%list)).

Definition alloc (c : cell) : M value :=
  λ w, let l := fresh (dom (heap w)) in
       Normal (VRef l) (World (<[l := c]> (heap w)) (log w)).

Definition read {A} (f : gmap loc cell → A) : M A :=
  λ w, Normal (f (heap w)) w.

Definition outcome_world {A} (o : outcome A) : world :=
  match o with Normal _ w => w | Thrown _ w => w end.

(** ** JavaScript primitives used by the module *)

(** [!v] is [negb (truthy v)]. *)
Definition truthy (v : value) : bool :=
  match v with
  | VUndefined | VNull => false
  | VBoolean b => b
  | VNumber n => negb (Z.eqb n 0)
  | VString s => negb (String.eqb s "")
  | VRef _ => true
  end.

(** [a === b] *)
Definition strict_equals (a b : value) : bool := bool_decide (a = b).

Definition nullish (v : value) : bool :=
  match v with VUndefined | VNull => true | _ => false end.

(** The property name of an array or string index. *)
Definition index_key (i : nat) : string := pretty i.

Fixpoint chars (s : string) : list value :=
  match s with
  | EmptyString => []
  | String c s' => VString (String c EmptyString) :: chars s'
  end.

Definition indexed (vs : list value) : list (string * value) :=
  imap (λ i v, (index_key i, v)) vs.

(** Own enumerable string-keyed properties of [ToObject(v)], in own-key
    order; empty for [undefined] and [null] (the behaviour of object
    spread; [Object.keys] is only reached on truthy values). *)
Definition own_props (h : gmap loc cell) (v : value) : list (string * value) :=
  match v with
  | VRef l =>
      match h !! l with
      | Some (CObject props) => props
      | Some (CArray elems) => indexed elems
      | Some (CFunction _) | None => []
      end
  | VString s => indexed (chars s)
  | _ => []
  end.

(** [Object.keys(v)] *)
Definition own_keys (h : gmap loc cell) (v : value) : list string :=
  (own_props h v).*1.

Fixpoint assoc (k : string) (props : list (string * value)) : option value :=
  match props with
  | [] => None
  | (k', v) :: rest => if String.eqb k k' then Some v else assoc k rest
  end.

(** [v[k]] for a data property of a non-nullish [v]: prototype chains and
    accessors play no part in the objects the module handles. *)
Definition get_own (h : gmap loc cell) (v : value) (k : string) : value :=
  default VUndefined (assoc k (own_props h v)).

(** [Object.prototype.hasOwnProperty.call(v, k)] *)
Definition has_own (h : gmap loc cell) (v : value) (k : string) : bool :=
  bool_decide (is_Some (assoc k (own_props h v))).

(** [v.k]: a [TypeError] on [undefined] and [null]. *)
Definition get (v : value) (k : string) : M value :=
  if nullish v then throw TypeError else read (λ h, get_own h v k).

(** Assignment to a property of a property list: an existing name keeps
    its position, a new name goes last. *)
Fixpoint set_prop (props : list (string * value)) (k : string) (v : value)
  : list (string * value) :=
  match props with
  | [] => [(k, v)]
  | (k', v') :: rest =>
      if String.eqb k k' then (k, v) :: rest else (k', v') :: set_prop rest k v
  end.

(** An object literal [{k1: v1, ...spread, ...}], entries left to right. *)
Definition object_literal (entries : list (string * value)) : list (string * value) :=
  foldl (λ acc kv, set_prop acc kv.1 kv.2) [] entries.

Definition new_object (entries : list (string * value)) : M value :=
  alloc (CObject (object_literal entries)).

(** [o[k] = v] on the own properties of an ordinary object, whose
    prototype chain ends in [Object.prototype].  An own property is
    updated where it stands and a new name goes last, with one exception:
    under the name [__proto__], when the object has no own property of
    that name, the assignment runs the setter inherited from
    [Object.prototype], which creates no own property: it replaces the
    prototype when [v] is an object, a function or [null] and does nothing
    for any other [v].  A cell holds the own properties only, so the
    replaced prototype is not recorded, and what a later assignment would
    inherit from it is left out: a function made the prototype would
    refuse the names [length] and [name]. *)
Definition assign_prop (props : list (string * value)) (k : string) (v : value)
  : list (string * value) :=
  if String.eqb k "__proto__" && negb (bool_decide (is_Some (assoc k props)))
  then props
  else set_prop props k v.

Definition cell_set (k : string) (v : value) (c : cell) : cell :=
  match c with
  | CObject props => CObject (assign_prop props k v)
  | other => other
  end.

(** [o[k] = v] on the object at [l]. *)
Definition put (l : loc) (k : string) (v : value) : M () :=
  λ w, Normal () (World (alter (cell_set k v) l (heap w)) (log w)).

(** [typeof v === 'function'] *)
Definition is_function (h : gmap loc cell) (v : value) : bool :=
  match v with
  | VRef l => match h !! l with Some (CFunction _) => true | _ => false end
  | _ => false
  end.

(** [Array.isArray(v)] *)
Definition is_array (h : gmap loc cell) (v : value) : bool :=
  match v with
  | VRef l => match h !! l with Some (CArray _) => true | _ => false end
  | _ => false
  end.

(** [obj[k] = v] in strict mode: a [TypeError] unless [obj] is an object. *)
Definition put_value (obj : value) (k : string) (v : value) : M () :=
  match obj with
  | VRef l => put l k v
  | _ => throw TypeError
  end.

(** [keys.reduce(f, init)] *)
Fixpoint reduce {A B} (f : B → A → M B) (l : list A) (init : B) : M B :=
  match l with
  | [] => mret init
  | x :: rest => acc ← f init x; reduce f rest acc
  end.

(** The rest pattern [{k1: _, ...rest}]: a new object holding the own
    properties not named in [excluded]. *)
Definition rest_object (v : value) (excluded : list string) : M value :=
  if nullish v then throw TypeError
  else
    props ← read (λ h, own_props h v);
    new_object (filter (λ kv, kv.1 ∉ excluded) props).

(** [f.bind(null, ...args)] for an imported function [f]. *)
Definition bind_imported (f : imported) (args : list value) : M value :=
  alloc (CFunction (Bound f args)).

(** The double-quote character, as a string. *)
Definition dq : string := String (Ascii.ascii_of_nat 34) EmptyString.

(** ** Collaborators

    What the module imports from code outside the file and what the
    platform provides.  [DEFAULT_INTL_CONFIG] is a constant of
    [../utils]; only its own properties matter.  The message-format
    engine and the rendering library are arbitrary effectful functions.
    The platform is ECMA-402: both [supportedLocalesOf] functions first
    canonicalize the requested locales, which raises on a malformed
    language tag, then filter them by the locales available to the
    service.  The string conversion of an object runs the object's own
    [toString]. *)
Class Collaborators := {
  DEFAULT_INTL_CONFIG : list (string * value);
  coreFormatMessage : value → value → value → value → M value;
  React_Children_toArray : value → M value;
  CanonicalizeLocaleList : value → exn + list string;
  NumberFormat_SupportedLocales : list string → list string;
  DateTimeFormat_SupportedLocales : list string → list string;
  ToString_object : loc → string
}.

(** ** The module *)

Section Provider.
Context {imports : Collaborators}.

(** String conversion of a template-literal substitution. *)
Definition ToString (v : value) : string :=
  match v with
  | VUndefined => "undefined"
  | VNull => "null"
  | VBoolean true => "true"
  | VBoolean false => "false"
  | VNumber n => pretty n
  | VString s => s
  | VRef l => ToString_object l
  end.

Definition supportedLocalesOf (supported : list string → list string)
    (locales : value) : M (list string) :=
  match CanonicalizeLocaleList locales with
  | inl e => throw e
  | inr tags => mret (supported tags)
  end.

Definition Intl_NumberFormat_supportedLocalesOf :=
  supportedLocalesOf NumberFormat_SupportedLocales.
Definition Intl_DateTimeFormat_supportedLocalesOf :=
  supportedLocalesOf DateTimeFormat_SupportedLocales.

(** A call of the error callback.  The callback returns normally and
    leaves the store alone (the configuration's contract for
    [onError]); the call is recorded with the diagnostic it is given. *)
Definition call_onError (onError : value) (err : diagnostic) : M () :=
  emit (OnError onError err).

(** Modelled from the spec: [createIntlCache] of [@formatjs/intl] is not
    in the file.  Its result is the Formatter Cache, a new mutable
    store; only its identity is used here. *)
Definition createIntlCache : M value := alloc (CObject []).

Definition formatter_kinds : list string :=
  ["getDateTimeFormat"; "getNumberFormat"; "getMessageFormat";
   "getRelativeTimeFormat"; "getPluralRules"; "getListFormat";
   "getDisplayNames"].

(** Modelled from the spec: [createFormatters] of [@formatjs/intl] is
    not in the file.  It returns the accessor bundle of section 4.4,
    one memoizing accessor per formatter kind, each scoped to the cache
    it is given (a cache of its own when none is given).  The call is
    recorded with its argument. *)
Definition createFormatters (cache : value) : M value :=
  emit (CreateFormatters cache);;
  scoped ← (if decide (cache = VUndefined) then createIntlCache else mret cache);
  accessors ← reduce (λ acc kind,
                 fn ← alloc (CFunction (Accessor kind scoped));
                 mret ((acc ++ [(kind, fn)])%list)) formatter_kinds [];
  new_object accessors.

(** Modelled from the spec: [assignUniqueKeysToParts] of [../utils] is
    not in the file.  It returns a new function wrapping [fn], the
    key-assigning wrapper of section 4.5. *)
Definition assignUniqueKeysToParts (fn : value) : M value :=
  alloc (CFunction (KeyedParts fn)).

(** Modelled from the spec: [isFormatXMLElementFn] of
    [intl-messageformat] is not in the file.  It recognizes the
    function-valued substitution values. *)
Definition isFormatXMLElementFn (v : value) : M bool :=
  read (λ h, is_function h v).

(** *** Config Normalizer *)

Definition processIntlConfig (config : value) : M value :=
  locale ← get config "locale";
  timeZone ← get config "timeZone";
  formats ← get config "formats";
  textComponent ← get config "textComponent";
  messages ← get config "messages";
  defaultLocale ← get config "defaultLocale";
  defaultFormats ← get config "defaultFormats";
  onError ← get config "onError";
  wrapRichTextChunksInFragment ← get config "wrapRichTextChunksInFragment";
  defaultRichTextElements ← get config "defaultRichTextElements";
  new_object
    [("locale", locale);
     ("timeZone", timeZone);
     ("formats", formats);
     ("textComponent", textComponent);
     ("messages", messages);
     ("defaultLocale", defaultLocale);
     ("defaultFormats", defaultFormats);
     ("onError", onError);
     ("wrapRichTextChunksInFragment", wrapRichTextChunksInFragment);
     ("defaultRichTextElements", defaultRichTextElements)].

(** *** Rich-Text Key Assignment *)

(** The callback given to [reduce], lines 99 to 105. *)
Definition assign_entry (values acc : value) (k : string) : M value :=
  v ← get values k;
  isFn ← isFormatXMLElementFn v;
  v' ← (if isFn : bool then assignUniqueKeysToParts v else mret v);
  put_value acc k v';;
  mret acc.

Definition assignUniqueKeysToFormatXMLElementFnArgument (values : value)
  : M value :=
  if negb (truthy values) then mret values
  else
    keys ← read (λ h, own_keys h values);
    init ← new_object [];
    reduce (assign_entry values) keys init.

(** *** The [formatMessage] wrapper *)

Definition formatMessage (config formatters descriptor rawValues : value)
  : M value :=
  values ← assignUniqueKeysToFormatXMLElementFnArgument rawValues;
  chunks ← coreFormatMessage config formatters descriptor values;
  isArray ← read (λ h, is_array h chunks);
  if isArray : bool then React_Children_toArray chunks else mret chunks.

(** *** Context Builder *)

Definition invalid_config_message (defaultLocale : value) : string :=
  dq +:+ "locale" +:+ dq +:+ " was not configured, using " +:+ dq
    +:+ ToString defaultLocale +:+ dq
    +:+ " as fallback. See https://formatjs.io/docs/react-intl/api#intlshape for more details".

Definition missing_data_message (service : string)
    (locale defaultLocale : value) : string :=
  "Missing locale data for locale: " +:+ dq +:+ ToString locale +:+ dq
    +:+ " in Intl." +:+ service +:+ ". Using default locale: " +:+ dq
    +:+ ToString defaultLocale +:+ dq
    +:+ " as fallback. See https://formatjs.io/docs/react-intl#runtime-requirements for more details".

(** The locale checks of [createIntl], lines 149 to 179. *)
Definition resolve_locale (resolvedConfig : value) : M () :=
  locale ← get resolvedConfig "locale";
  defaultLocale ← get resolvedConfig "defaultLocale";
  onError ← get resolvedConfig "onError";
  if negb (truthy locale) then
    (if truthy onError then
       call_onError onError
         (InvalidConfigError (invalid_config_message defaultLocale))
     else mret ());;
    fallback ← get resolvedConfig "defaultLocale";
    put_value resolvedConfig "locale"
      (if truthy fallback then fallback else VString "en")
  else
    numberLocales ← Intl_NumberFormat_supportedLocalesOf locale;
    if negb (bool_decide (length numberLocales ≠ 0%nat)) && truthy onError then
      call_onError onError
        (MissingDataError (missing_data_message "NumberFormat" locale defaultLocale))
    else
      dateTimeLocales ← Intl_DateTimeFormat_supportedLocalesOf locale;
      if negb (bool_decide (length dateTimeLocales ≠ 0%nat)) && truthy onError then
        call_onError onError
          (MissingDataError
             (missing_data_message "DateTimeFormat" locale defaultLocale))
      else mret ().

(** The returned object literal of [createIntl], lines 180 to 230. *)
Definition build_shape (resolvedConfig formatters : value) : M value :=
  resolved ← read (λ h, own_props h resolvedConfig);
  getNumberFormat1 ← get formatters "getNumberFormat";
  formatNumber ← bind_imported formatNumber_ [resolvedConfig; getNumberFormat1];
  getNumberFormat2 ← get formatters "getNumberFormat";
  formatNumberToParts ←
    bind_imported formatNumberToParts_ [resolvedConfig; getNumberFormat2];
  getRelativeTimeFormat ← get formatters "getRelativeTimeFormat";
  formatRelativeTime ←
    bind_imported formatRelativeTime_ [resolvedConfig; getRelativeTimeFormat];
  getDateTimeFormat1 ← get formatters "getDateTimeFormat";
  formatDate ← bind_imported formatDate_ [resolvedConfig; getDateTimeFormat1];
  getDateTimeFormat2 ← get formatters "getDateTimeFormat";
  formatDateToParts ←
    bind_imported formatDateToParts_ [resolvedConfig; getDateTimeFormat2];
  getDateTimeFormat3 ← get formatters "getDateTimeFormat";
  formatTime ← bind_imported formatTime_ [resolvedConfig; getDateTimeFormat3];
  getDateTimeFormat4 ← get formatters "getDateTimeFormat";
  formatTimeToParts ←
    bind_imported formatTimeToParts_ [resolvedConfig; getDateTimeFormat4];
  getPluralRules ← get formatters "getPluralRules";
  formatPlural ← bind_imported formatPlural_ [resolvedConfig; getPluralRules];
  formatMessage' ← bind_imported formatMessage_ [resolvedConfig; formatters];
  getListFormat ← get formatters "getListFormat";
  formatList ← bind_imported formatList_ [resolvedConfig; getListFormat];
  getDisplayNames ← get formatters "getDisplayNames";
  formatDisplayName ←
    bind_imported formatDisplayName_ [resolvedConfig; getDisplayNames];
  new_object
    (resolved ++
     [("formatters", formatters);
      ("formatNumber", formatNumber);
      ("formatNumberToParts", formatNumberToParts);
      ("formatRelativeTime", formatRelativeTime);
      ("formatDate", formatDate);
      ("formatDateToParts", formatDateToParts);
      ("formatTime", formatTime);
      ("formatTimeToParts", formatTimeToParts);
      ("formatPlural", formatPlural);
      ("formatMessage", formatMessage');
      ("formatList", formatList);
      ("formatDisplayName", formatDisplayName)]).

Definition createIntl (arg cache : value) : M value :=
  rawDefaultRichTextElements ← get arg "defaultRichTextElements";
  config ← rest_object arg ["defaultRichTextElements"];
  formatters ← createFormatters cache;
  defaultRichTextElements ←
    assignUniqueKeysToFormatXMLElementFnArgument rawDefaultRichTextElements;
  overrides ← read (λ h, own_props h config);
  resolvedConfig ←
    new_object
      (DEFAULT_INTL_CONFIG ++ overrides ++
       [("defaultRichTextElements", defaultRichTextElements)]);
  resolve_locale resolvedConfig;;
  build_shape resolvedConfig formatters.

(** *** Change-Detection Gate and provider state *)

(** [shallowEqualObjects] of the package [shallow-equal], the function
    imported as [shallowEquals]; it only reads the store. *)
Definition shallowEqualObjects (h : gmap loc cell) (objA objB : value) : bool :=
  if strict_equals objA objB then true
  else if negb (truthy objA) || negb (truthy objB) then false
  else
    let aKeys := own_keys h objA in
    let bKeys := own_keys h objB in
    if negb (bool_decide (length bKeys = length aKeys)) then false
    else
      forallb (λ key,
        strict_equals (get_own h objA key) (get_own h objB key)
        && has_own h objB key) aKeys.

Definition shallowEquals (objA objB : value) : M bool :=
  read (λ h, shallowEqualObjects h objA objB).

Definition getDerivedStateFromProps (props state : value) : M value :=
  prevConfig ← get state "prevConfig";
  cache ← get state "cache";
  config ← processIntlConfig props;
  equal ← shallowEquals prevConfig config;
  if negb equal then
    intl ← createIntl config cache;
    new_object [("intl", intl); ("prevConfig", config)]
  else mret VNull.

(** The field initializers of [IntlProvider], lines 241 to 246. *)
Definition IntlProvider_init (props : value) : M value :=
  cache ← createIntlCache;
  config ← processIntlConfig props;
  intl ← createIntl config cache;
  prevConfig ← processIntlConfig props;
  new_object [("cache", cache); ("intl", intl); ("prevConfig", prevConfig)].

(** How the rendering library applies the result of
    [getDerivedStateFromProps]: [null] and [undefined] keep the state
    object, anything else is merged into a copy of it
    ([Object.assign({}, prevState, partialState)]). *)
Definition applyDerivedState (props state : value) : M value :=
  partialState ← getDerivedStateFromProps props state;
  if nullish partialState then mret state
  else
    prev ← read (λ h, own_props h state);
    partial ← read (λ h, own_props h partialState);
    new_object (prev ++ partial).

(** The provider over its lifetime: one update per props object. *)
Definition updates (propss : list value) (state : value) : M value :=
  reduce (λ st props, applyDerivedState props st) propss state.

Definition IntlProvider_life (props : value) (propss : list value) : M value :=
  state ← IntlProvider_init props;
  updates propss state.

(** ** Vocabulary of the statements *)

(** The recognized fields, in the order of the normalized record. *)
Definition recognized_fields : list string :=
  ["locale"; "timeZone"; "formats"; "textComponent"; "messages";
   "defaultLocale"; "defaultFormats"; "onError";
   "wrapRichTextChunksInFragment"; "defaultRichTextElements"].

(** The normalized record of [config] in store [h]: each recognized
    field with the value read from [config]. *)
Definition normalized (h : gmap loc cell) (config : value) : list (string * value) :=
  (λ k, (k, get_own h config k)) <$> recognized_fields.

(** The contract of the Change-Detection Gate: the same set of keys, and
    under each key the same value ([===], so objects by reference). *)
Definition shallow_equal (h : gmap loc cell) (a b : value) : Prop :=
  (∀ k, k ∈ own_keys h a ↔ k ∈ own_keys h b)
  ∧ (∀ k, k ∈ own_keys h a → get_own h a k = get_own h b k).

(** Every cell of [h] other than the one at [la] is still in [h']. *)
Definition untouched_but (la : loc) (h h' : gmap loc cell) : Prop :=
  ∀ l c, l ≠ la → h !! l = Some c → h' !! l = Some c.

(** A reference is allocated when the store has a cell for it. *)
Definition allocated (h : gmap loc cell) (v : value) : Prop :=
  match v with VRef l => is_Some (h !! l) | _ => True end.

(** How key assignment relates an entry [v] of the input map in store
    [h] to the entry [v'] of the output map in store [h']: a function is
    replaced by a newly created key-assigning wrapper of it, anything
    else stays. *)
Definition key_assigned (h h' : gmap loc cell) (v v' : value) : Prop :=
  if is_function h v then
    ∃ lf, v' = VRef lf ∧ h !! lf = None
          ∧ h' !! lf = Some (CFunction (KeyedParts v))
  else v' = v.

(** The property names the shape adds to the resolved configuration. *)
Definition shape_names : list string :=
  ["formatters"; "formatNumber"; "formatNumberToParts"; "formatRelativeTime";
   "formatDate"; "formatDateToParts"; "formatTime"; "formatTimeToParts";
   "formatPlural"; "formatMessage"; "formatList"; "formatDisplayName"].

(** The properties of [config] after the rest pattern has taken
    [defaultRichTextElements] out. *)
Definition rest_props (h : gmap loc cell) (arg : value) : list (string * value) :=
  object_literal
    (filter (λ kv, kv.1 ∉ ["defaultRichTextElements"]) (own_props h arg)).

(** The properties of [resolvedConfig] as first built, line 143, with [d]
    the key-assigned rich-text elements. *)
Definition resolved_props (h : gmap loc cell) (arg d : value) : list (string * value) :=
  object_literal
    (DEFAULT_INTL_CONFIG ++ rest_props h arg ++ [("defaultRichTextElements", d)]).

(** A field of the resolved configuration other than
    [defaultRichTextElements]: the configuration's own, else the base
    default. *)
Definition resolved (h : gmap loc cell) (arg : value) (k : string) : value :=
  default VUndefined (assoc k (resolved_props h arg VUndefined)).

(** The diagnostics of the two missing-data checks, for a truthy locale
    whose canonical form is [tags]. *)
Definition missing_data_events (tags : list string)
    (locale defaultLocale onError : value) : list event :=
  if negb (bool_decide (length (NumberFormat_SupportedLocales tags) ≠ 0%nat))
     && truthy onError
  then [OnError onError
          (MissingDataError (missing_data_message "NumberFormat" locale defaultLocale))]
  else if negb (bool_decide (length (DateTimeFormat_SupportedLocales tags) ≠ 0%nat))
          && truthy onError
  then [OnError onError
          (MissingDataError (missing_data_message "DateTimeFormat" locale defaultLocale))]
  else [].

(** The locale the shape ends up with. *)
Definition effective_locale (locale defaultLocale : value) : value :=
  if truthy locale then locale
  else if truthy defaultLocale then defaultLocale else VString "en".

(** The diagnostics of one [createIntl] call. *)
Definition locale_events (tags : list string)
    (locale defaultLocale onError : value) : list event :=
  if truthy locale then missing_data_events tags locale defaultLocale onError
  else if truthy onError
  then [OnError onError (InvalidConfigError (invalid_config_message defaultLocale))]
  else [].

(** A store holding the configuration
    [{locale: undefined, defaultLocale: undefined, onError: f}] at
    location 1 and the callback [f] at location 2. *)
Definition store_without_locales : world :=
  World (<[1%positive := CObject [("locale", VUndefined);
                                  ("defaultLocale", VUndefined);
                                  ("onError", VRef 2)]]>
           (<[2%positive := CFunction Opaque]> ∅)) [].

(** The same with empty strings for both locales:
    [{locale: '', defaultLocale: '', onError: f}]. *)
Definition store_with_empty_locales : world :=
  World (<[1%positive := CObject [("locale", VString "");
                                  ("defaultLocale", VString "");
                                  ("onError", VRef 2)]]>
           (<[2%positive := CFunction Opaque]> ∅)) [].

(** A provider state whose cache is [cache]. *)
Definition provider_state (cache : value) (h : gmap loc cell) (st : value) : Prop :=
  ∃ ls intl prevConfig,
    st = VRef ls
    ∧ h !! ls = Some (CObject [("cache", cache); ("intl", intl);
                               ("prevConfig", prevConfig)]).

(** What holds of every run of the provider that started in [w] with
    the cache [cache]: the store only grew, the formatters were only ever
    made with [cache], and a state it ends with has [cache] as cache. *)
Definition cache_kept (cache : value) (w : world) (o : outcome value) : Prop :=
  heap w ⊆ heap (outcome_world o)
  ∧ (∃ events, log (outcome_world o) = log w ++ events
               ∧ ∀ c, CreateFormatters c ∈ events → c = cache)
  ∧ (∀ st w', o = Normal st w' → provider_state cache (heap w') st).

(** A store holding [{locale: 'tlh', defaultLocale: 'en', onError: f}]
    at location 1 and the callback [f] at location 2. *)
Definition store_with_unsupported_locale : world :=
  World (<[1%positive := CObject [("locale", VString "tlh");
                                  ("defaultLocale", VString "en");
                                  ("onError", VRef 2)]]>
           (<[2%positive := CFunction Opaque]> ∅)) [].

(** A store holding [{locale: undefined, defaultLocale: 'fr'}], a
    configuration without error callback, at location 1. *)
Definition store_without_onError : world :=
  World (<[1%positive := CObject [("locale", VUndefined);
                                  ("defaultLocale", VString "fr")]]> ∅) [].

(** A store holding the substitution values [{b: f, name: 'Ann'}] at
    location 1 and the function [f] at location 2. *)
Definition store_with_values : world :=
  World (<[1%positive := CObject [("b", VRef 2); ("name", VString "Ann")]]>
           (<[2%positive := CFunction Opaque]> ∅)) [].

(** A store holding the props [{locale: 'en'}] at location 1 and, at
    location 3, a provider state whose cache is at 4 and whose previous
    configuration, at 5, is [{locale: 'fr'}]. *)
Definition store_with_state : world :=
  World (<[1%positive := CObject [("locale", VString "en")]]>
           (<[3%positive := CObject [("cache", VRef 4); ("intl", VUndefined);
                                     ("prevConfig", VRef 5)]]>
              (<[4%positive := CObject []]>
                 (<[5%positive := CObject [("locale", VString "fr")]]> ∅)))) [].

(** A store holding the props [{locale: 'en'}] at location 1 and the
    props [{locale: 'fr'}] at location 2. *)
Definition store_with_two_props : world :=
  World (<[1%positive := CObject [("locale", VString "en")]]>
           (<[2%positive := CObject [("locale", VString "fr")]]> ∅)) [].

(** The formatting functions of the shape, lines 183 to 229: the
    property name, the function bound, and the accessor of the formatters
    given as second argument ([formatMessage] gets the formatters
    themselves). *)
Definition capabilities : list (string * (imported * option string)) :=
  [("formatNumber", (formatNumber_, Some "getNumberFormat"));
   ("formatNumberToParts", (formatNumberToParts_, Some "getNumberFormat"));
   ("formatRelativeTime", (formatRelativeTime_, Some "getRelativeTimeFormat"));
   ("formatDate", (formatDate_, Some "getDateTimeFormat"));
   ("formatDateToParts", (formatDateToParts_, Some "getDateTimeFormat"));
   ("formatTime", (formatTime_, Some "getDateTimeFormat"));
   ("formatTimeToParts", (formatTimeToParts_, Some "getDateTimeFormat"));
   ("formatPlural", (formatPlural_, Some "getPluralRules"));
   ("formatMessage", (formatMessage_, None));
   ("formatList", (formatList_, Some "getListFormat"));
   ("formatDisplayName", (formatDisplayName_, Some "getDisplayNames"))].

(** In store [h], the property [cap.1] of the shape [S] is a function
    bound to the configuration [rc] and to what [cap] takes from
    [formatters]. *)
Definition bound_to (h : gmap loc cell) (S : list (string * value))
    (rc formatters : value) (cap : string * (imported * option string)) : Prop :=
  ∃ l, assoc cap.1 S = Some (VRef l)
       ∧ h !! l =
           Some (CFunction
                   (Bound cap.2.1
                      [rc; match cap.2.2 with
                           | Some accessor => get_own h formatters accessor
                           | None => formatters
                           end])).

(** A provider state as the provider stores it: the three fields, with
    under [prevConfig] a record [P] over the recognized fields. *)
Definition settled (h : gmap loc cell) (st : value) (P : list (string * value)) : Prop :=
  ∃ ls cache intl lp,
    st = VRef ls
    ∧ h !! ls = Some (CObject [("cache", cache); ("intl", intl);
                               ("prevConfig", VRef lp)])
    ∧ h !! lp = Some (CObject P)
    ∧ P.*1 = recognized_fields.

(** The props agree with the record [P] on every recognized field. *)
Definition same_fields (h : gmap loc cell) (props : value) (P : list (string * value)) : Prop :=
  ∀ k, k ∈ recognized_fields → get_own h props k = default VUndefined (assoc k P).

(** A store holding the props [{locale: 'en', children: 'a'}] at
    location 1, the props [{locale: 'en', children: 'b'}] at location 2
    and, at location 3, a provider state whose cache is at 4 and whose
    previous configuration, at 5, is the normalized record of
    [{locale: 'en'}]. *)
Definition store_with_settled_state : world :=
  World (<[1%positive := CObject [("locale", VString "en"); ("children", VString "a")]]>
        (<[2%positive := CObject [("locale", VString "en"); ("children", VString "b")]]>
        (<[3%positive := CObject [("cache", VRef 4); ("intl", VUndefined);
                                  ("prevConfig", VRef 5)]]>
        (<[4%positive := CObject []]>
        (<[5%positive := CObject
             ((λ k, (k, if String.eqb k "locale" then VString "en" else VUndefined))
                <$> recognized_fields)]> ∅))))) [].

(** A store holding the configuration
    [{locale: 'not a locale', onError: f}] at location 1 and the callback
    [f] at location 2. *)
Definition store_with_malformed_locale : world :=
  World (<[1%positive := CObject [("locale", VString "not a locale");
                                  ("onError", VRef 2)]]>
           (<[2%positive := CFunction Opaque]> ∅)) [].

(** A store holding the configuration [{locale: 'fr', onError: f}] at
    location 1 and the callback [f] at location 2. *)
Definition store_with_supported_locale : world :=
  World (<[1%positive := CObject [("locale", VString "fr"); ("onError", VRef 2)]]>
           (<[2%positive := CFunction Opaque]> ∅)) [].

(** A store holding the configuration
    [{locale: 'en', defaultRichTextElements: {b: f}}] at location 1, the
    map at location 2 and the function [f] at location 3. *)
Definition store_with_rich_text_elements : world :=
  World (<[1%positive := CObject [("locale", VString "en");
                                  ("defaultRichTextElements", VRef 2)]]>
        (<[2%positive := CObject [("b", VRef 3)]]>
        (<[3%positive := CFunction Opaque]> ∅))) [].

(** A store holding the substitution values [{name: 'Ann', count: 3}] at
    location 1. *)
Definition store_with_plain_values : world :=
  World (<[1%positive := CObject [("name", VString "Ann"); ("count", VNumber 3)]]> ∅) [].

(** A store holding, at location 1, the substitution values
    [{"__proto__": "x", "a": 1}] as [JSON.parse] makes them, with
    [__proto__] an own property. *)
Definition store_with_proto_key : world :=
  World (<[1%positive := CObject [("__proto__", VString "x"); ("a", VNumber 1)]]> ∅) [].

(** A part of a formatted message: a string, or a rendered fragment,
    which is an element object. *)
Definition is_part (h : gmap loc cell) (v : value) : Prop :=
  match v with
  | VString _ => True
  | VRef l => ∃ props, h !! l = Some (CObject props)
  | _ => False
  end.

(** The part [v] at position [i] of an array, in store [h], and what the
    rendering library makes of it, in store [h']: a fragment becomes a new
    element with the properties of [v] and, under [key], the identity that
    [child_key] derives from the key of [v] and from the position; a
    string stays that string, which the rendering library identifies by
    its position. *)
Definition keyed_part (child_key : value → nat → string) (h h' : gmap loc cell)
    (i : nat) (v v' : value) : Prop :=
  match v with
  | VRef l =>
      ∃ l', v' = VRef l' ∧ h !! l' = None
            ∧ h' !! l' =
                Some (CObject (set_prop (own_props h v) "key"
                                 (VString (child_key (get_own h v "key") i))))
  | _ => v' = v
  end.

(** What the module relies on of [React.Children.toArray], which
    [returns the children as a flat array with keys assigned to each
    child]: on an array of parts it returns a new array of as many
    parts, the part at each position keyed, and touches nothing else. *)
Definition keys_parts (toArray : value → M value) : Prop :=
  ∃ child_key : value → nat → string,
    ∀ (l : loc) (elems : list value) (w : world),
      heap w !! l = Some (CArray elems) →
      Forall (is_part (heap w)) elems →
      ∃ l' elems' w',
        toArray (VRef l) w = Normal (VRef l') w'
        ∧ heap w !! l' = None
        ∧ heap w' !! l' = Some (CArray elems')
        ∧ length elems' = length elems
        ∧ (∀ i v v', elems !! i = Some v → elems' !! i = Some v' →
             keyed_part child_key (heap w) (heap w') i v v')
        ∧ heap w ⊆ heap w'
        ∧ log w' = log w.

End Provider.

(** Collaborators to run the module with: a platform that knows [en]
    and [fr] for numbers and [en], [fr] and [tlh] for dates, and rejects
    one malformed tag. *)
Definition sample_imports : Collaborators := {|
  DEFAULT_INTL_CONFIG := [("timeZone", VUndefined); ("defaultLocale", VString "en")];
  coreFormatMessage := λ _ _ _ _, mret (VString "Hello");
  React_Children_toArray := λ chunks, mret chunks;
  CanonicalizeLocaleList := λ v,
    match v with
    | VString s => if String.eqb s "not a locale" then inl RangeError else inr [s]
    | VRef _ => inl TypeError
    | _ => inr []
    end;
  NumberFormat_SupportedLocales := filter (λ t, t ∈ ["en"; "fr"]);
  DateTimeFormat_SupportedLocales := filter (λ t, t ∈ ["en"; "fr"; "tlh"]);
  ToString_object := λ _, "[object Object]"
|}.

(** A rendering library: the key of a child is its own key behind [.$],
    or its position behind a dot. *)
Definition child_key_of (key : value) (i : nat) : string :=
  match key with
  | VString s => ".$" +:+ s
  | _ => "." +:+ pretty i
  end.

Definition key_child (i : nat) (v : value) : M value :=
  element ← read (λ h,
    match v with
    | VRef l => match h !! l with Some (CObject props) => Some props | _ => None end
    | _ => None
    end);
  match element with
  | Some props =>
      alloc (CObject (set_prop props "key"
                        (VString (child_key_of (default VUndefined (assoc "key" props)) i))))
  | None => mret v
  end.

Fixpoint key_children (i : nat) (elems : list value) : M (list value) :=
  match elems with
  | [] => mret []
  | v :: rest =>
      v' ← key_child i v;
      rest' ← key_children (S i) rest;
      mret (v' :: rest')
  end.

Definition Children_toArray (children : value) : M value :=
  elems ← read (λ h,
    match children with
    | VRef l => match h !! l with Some (CArray elems) => elems | _ => [children] end
    | _ => [children]
    end);
  keyed ← key_children 0 elems;
  alloc (CArray keyed).

(** A message-format engine that answers every call with the parts of
    [Hello, <b/>]: a string and a fragment without a key. *)
Definition hello_parts (config formatters descriptor values : value) : M value :=
  fragment ← alloc (CObject [("type", VString "b"); ("key", VNull)]);
  alloc (CArray [VString "Hello, "; fragment]).

(** Collaborators with the defaults of the package.  [DEFAULT_INTL_CONFIG]
    is a constant of [../utils], which is not in the file; there it holds
    [formats], [messages], [timeZone], [textComponent], [defaultLocale],
    [defaultFormats] and [onError], the last one the default error
    handler of the package, which writes the diagnostic to the console.
    Its objects are at the locations 101 to 105 of the store.  The
    platform is the one of [sample_imports]. *)
Definition shipped_imports : Collaborators := {|
  DEFAULT_INTL_CONFIG :=
    [("formats", VRef 101); ("messages", VRef 102); ("timeZone", VUndefined);
     ("textComponent", VRef 103); ("defaultLocale", VString "en");
     ("defaultFormats", VRef 104); ("onError", VRef 105)];
  coreFormatMessage := hello_parts;
  React_Children_toArray := Children_toArray;
  CanonicalizeLocaleList := λ v,
    match v with
    | VString s => if String.eqb s "not a locale" then inl RangeError else inr [s]
    | VRef _ => inl TypeError
    | _ => inr []
    end;
  NumberFormat_SupportedLocales := filter (λ t, t ∈ ["en"; "fr"]);
  DateTimeFormat_SupportedLocales := filter (λ t, t ∈ ["en"; "fr"; "tlh"]);
  ToString_object := λ _, "[object Object]"
|}.

(** A store holding the objects of the package's defaults (the empty
    [formats], [messages] and [defaultFormats], the fragment marker and
    the default error handler, at 101 to 105), the configuration
    [{locale: undefined, defaultLocale: 'fr'}], which has no [onError],
    at location 1, the configuration [{locale: 'not a locale'}] at
    location 2 and the substitution values [{b: f}] at location 3, with
    the function [f] at location 4. *)
Definition store_with_shipped_defaults : world :=
  World (<[1%positive := CObject [("locale", VUndefined); ("defaultLocale", VString "fr")]]>
        (<[2%positive := CObject [("locale", VString "not a locale")]]>
        (<[3%positive := CObject [("b", VRef 4)]]>
        (<[4%positive := CFunction Opaque]>
        (<[101%positive := CObject []]>
        (<[102%positive := CObject []]>
        (<[103%positive := CFunction Opaque]>
        (<[104%positive := CObject []]>
        (<[105%positive := CFunction Opaque]> ∅))))))))) [].

(** ** Running the monad *)

Lemma bind_run {A B} (m : M A) (f : A → M B) w :
  (m ≫= f) w =
  match m w with Normal a w' => f a w' | Thrown e w' => Thrown e w' end.
Proof. reflexivity. Qed.

Lemma bind_normal {A B} (m : M A) (f : A → M B) w a w' :
  m w = Normal a w' → (m ≫= f) w = f a w'.
Proof. intros H. rewrite bind_run, H. reflexivity. Qed.

Lemma alloc_fresh (w : world) :
  heap w !! fresh (dom (heap w)) = None.
Proof. apply not_elem_of_dom, is_fresh. Qed.

Lemma alloc_run c w :
  ∃ l, alloc c w = Normal (VRef l) (World (<[l := c]> (heap w)) (log w))
       ∧ heap w !! l = None.
Proof. eexists. split; [reflexivity | apply alloc_fresh]. Qed.

Lemma get_run v k w :
  nullish v = false → get v k w = Normal (get_own (heap w) v k) w.
Proof. intros H. unfold get. rewrite H. reflexivity. Qed.

(** ** Property lists *)

Lemma assoc_set_prop props k k' v :
  assoc k (set_prop props k' v) = if decide (k = k') then Some v else assoc k props.
Proof.
  induction props as [|[k0 v0] rest IH]; simpl.
  - destruct (String.eqb_spec k k'); case_decide; congruence.
  - destruct (String.eqb_spec k' k0) as [->|Hne]; simpl.
    + destruct (String.eqb_spec k k0); case_decide; congruence.
    + destruct (String.eqb_spec k k0) as [->|]; [|exact IH].
      case_decide; congruence.
Qed.

Lemma assoc_None props k : assoc k props = None ↔ k ∉ props.*1.
Proof.
  induction props as [|[k0 v0] rest IH]; simpl.
  - split; [intros _; apply not_elem_of_nil | done].
  - rewrite not_elem_of_cons.
    destruct (String.eqb_spec k k0) as [->|Hne]; [split; [done | tauto] | tauto].
Qed.

Lemma assoc_Some_elem props k v : assoc k props = Some v → (k, v) ∈ props.
Proof.
  induction props as [|[k0 v0] rest IH]; simpl; [done|].
  destruct (String.eqb_spec k k0) as [->|Hne].
  - intros [= ->]. left.
  - intros H. right. auto.
Qed.

Lemma assoc_elem_NoDup props k v :
  NoDup props.*1 → (k, v) ∈ props → assoc k props = Some v.
Proof.
  induction props as [|[k0 v0] rest IH]; simpl; intros Hnd Hin.
  - by apply elem_of_nil in Hin.
  - apply NoDup_cons in Hnd as [Hk0 Hnd].
    apply elem_of_cons in Hin as [[= <- <-]|Hin].
    + by rewrite String.eqb_refl.
    + destruct (String.eqb_spec k k0) as [->|Hne]; [|auto].
      exfalso. apply Hk0. apply list_elem_of_fmap. by exists (k0, v).
Qed.

Lemma set_prop_fresh props k v :
  k ∉ props.*1 → set_prop props k v = props ++ [(k, v)].
Proof.
  induction props as [|[k0 v0] rest IH]; simpl; [done|].
  rewrite not_elem_of_cons. intros [Hne Hnin].
  destruct (String.eqb_spec k k0); [done|]. by rewrite IH.
Qed.

Lemma set_prop_keys props k v :
  (set_prop props k v).*1 = if decide (k ∈ props.*1) then props.*1 else props.*1 ++ [k].
Proof.
  induction props as [|[k0 v0] rest IH]; csimpl.
  - done.
  - destruct (String.eqb_spec k k0) as [->|Hne]; csimpl.
    + rewrite decide_True; [done | left].
    + rewrite IH. destruct (decide (k ∈ rest.*1)) as [Hin|Hnin].
      * rewrite decide_True; [done | by right].
      * rewrite decide_False; [done|]. rewrite not_elem_of_cons. done.
Qed.

Lemma foldl_set_prop_NoDup acc entries :
  NoDup (acc ++ entries).*1 →
  foldl (λ a kv, set_prop a kv.1 kv.2) acc entries = acc ++ entries.
Proof.
  revert acc. induction entries as [|[k v] rest IH]; intros acc Hnd; simpl.
  - by rewrite app_nil_r.
  - rewrite set_prop_fresh.
    + rewrite IH; rewrite <- app_assoc; done.
    + rewrite fmap_app in Hnd. apply NoDup_app in Hnd as (_ & Hdis & _).
      intros Hin. apply (Hdis _ Hin). simpl. left.
Qed.

Lemma object_literal_NoDup entries :
  NoDup entries.*1 → object_literal entries = entries.
Proof. intros H. unfold object_literal. by rewrite foldl_set_prop_NoDup. Qed.

Lemma set_prop_NoDup props k v : NoDup props.*1 → NoDup (set_prop props k v).*1.
Proof.
  intros Hnd. rewrite set_prop_keys. case_decide as Hin; [done|].
  apply NoDup_app. split_and!; [done | | apply NoDup_singleton].
  intros x Hx Hx'. apply list_elem_of_singleton in Hx'. by subst.
Qed.

Lemma foldl_set_prop_keys_NoDup acc entries :
  NoDup acc.*1 → NoDup (foldl (λ a kv, set_prop a kv.1 kv.2) acc entries).*1.
Proof.
  revert acc. induction entries as [|[k v] rest IH]; intros acc Hnd; simpl; [done|].
  by apply IH, set_prop_NoDup.
Qed.

Lemma object_literal_keys_NoDup entries : NoDup (object_literal entries).*1.
Proof. apply foldl_set_prop_keys_NoDup. constructor. Qed.

Lemma assoc_foldl_set_prop_notin acc entries k :
  k ∉ entries.*1 →
  assoc k (foldl (λ a kv, set_prop a kv.1 kv.2) acc entries) = assoc k acc.
Proof.
  revert acc. induction entries as [|[k0 v0] rest IH]; intros acc Hnin; simpl; [done|].
  simpl in Hnin. apply not_elem_of_cons in Hnin as [Hne Hnin].
  rewrite IH by done. rewrite assoc_set_prop. by rewrite decide_False.
Qed.

Lemma assoc_foldl_set_prop acc entries k :
  NoDup entries.*1 →
  assoc k (foldl (λ a kv, set_prop a kv.1 kv.2) acc entries) =
    match assoc k entries with Some v => Some v | None => assoc k acc end.
Proof.
  revert acc. induction entries as [|[k0 v0] rest IH]; intros acc Hnd; [done|].
  csimpl in *. apply NoDup_cons in Hnd as [Hk0 Hnd]. rewrite IH by done.
  rewrite assoc_set_prop.
  destruct (String.eqb_spec k k0) as [->|Hne].
  - apply assoc_None in Hk0. rewrite Hk0. by rewrite decide_True.
  - by rewrite decide_False.
Qed.

Lemma assoc_object_literal_app entries extra k :
  k ∉ extra.*1 →
  assoc k (object_literal (entries ++ extra)) = assoc k (object_literal entries).
Proof.
  intros H. unfold object_literal. rewrite foldl_app.
  by apply assoc_foldl_set_prop_notin.
Qed.

(** ** Config Normalizer *)

Lemma processIntlConfig_run config w :
  nullish config = false →
  processIntlConfig config w = alloc (CObject (normalized (heap w) config)) w.
Proof.
  intros H. unfold processIntlConfig.
  rewrite !(bind_normal _ _ _ _ _ (get_run _ _ _ H)). reflexivity.
Qed.

(** C5. For every raw configuration object, [processIntlConfig] returns a
    new record holding exactly the ten recognized fields, in the order
    locale, timeZone, formats, textComponent, messages, defaultLocale,
    defaultFormats, onError, wrapRichTextChunksInFragment,
    defaultRichTextElements, each with the value read from the input
    ([undefined] included); nothing is logged and no existing object is
    changed; and two inputs that agree on the recognized fields give the
    same result, so no other input field can reach the output. *)
Theorem processIntlConfig_recognized_fields (w : world) (config : value) :
  nullish config = false →
  ∃ l, heap w !! l = None
    ∧ processIntlConfig config w =
        Normal (VRef l)
          (World (<[l := CObject
                    [("locale", get_own (heap w) config "locale");
                     ("timeZone", get_own (heap w) config "timeZone");
                     ("formats", get_own (heap w) config "formats");
                     ("textComponent", get_own (heap w) config "textComponent");
                     ("messages", get_own (heap w) config "messages");
                     ("defaultLocale", get_own (heap w) config "defaultLocale");
                     ("defaultFormats", get_own (heap w) config "defaultFormats");
                     ("onError", get_own (heap w) config "onError");
                     ("wrapRichTextChunksInFragment",
                      get_own (heap w) config "wrapRichTextChunksInFragment");
                     ("defaultRichTextElements",
                      get_own (heap w) config "defaultRichTextElements")]]>
                   (heap w))
                 (log w))
    ∧ ∀ config', nullish config' = false →
        (∀ k, k ∈ recognized_fields →
              get_own (heap w) config' k = get_own (heap w) config k) →
        processIntlConfig config' w = processIntlConfig config w.
Proof.
  intros Hn. exists (fresh (dom (heap w))). split_and!.
  - apply alloc_fresh.
  - rewrite processIntlConfig_run by done. reflexivity.
  - intros config' Hn' Hagree. rewrite !processIntlConfig_run by done.
    f_equal. f_equal. unfold normalized. apply list_fmap_ext.
    intros i k Hk. f_equal. apply Hagree. by eapply list_elem_of_lookup_2.
Qed.

(** ** Shallow equality *)

Lemma strict_equals_true a b : strict_equals a b = true ↔ a = b.
Proof. unfold strict_equals. apply bool_decide_eq_true. Qed.

Lemma has_own_keys h v k : has_own h v k = true ↔ k ∈ own_keys h v.
Proof.
  unfold has_own, own_keys. rewrite bool_decide_eq_true.
  pose proof (assoc_None (own_props h v) k) as Hnone.
  destruct (assoc k (own_props h v)) as [x|].
  - split; [|by eexists]. intros _.
    destruct (decide (k ∈ (own_props h v).*1)) as [|Hn]; [done|].
    by apply Hnone in Hn.
  - split; [by intros [? ?]|]. intros Hk. exfalso. by apply Hnone.
Qed.

Lemma falsy_no_keys h v : truthy v = false → own_keys h v = [].
Proof.
  unfold own_keys, own_props.
  destruct v as [| |b|n|s|l]; try done.
  simpl. destruct s; [done | discriminate].
Qed.

Lemma shallow_equal_refl h a : shallow_equal h a a.
Proof. split; done. Qed.

Lemma shallowEqualObjects_spec h a b :
  NoDup (own_keys h a) → NoDup (own_keys h b) → own_keys h b ≠ [] →
  shallowEqualObjects h a b = true ↔ shallow_equal h a b.
Proof.
  intros Ha Hb Hne. unfold shallowEqualObjects.
  destruct (strict_equals a b) eqn:Hab.
  { apply strict_equals_true in Hab as ->. split; [intros _; apply shallow_equal_refl | done]. }
  destruct (truthy b) eqn:Htb; [|by rewrite falsy_no_keys in Hne].
  destruct (truthy a) eqn:Hta; simpl.
  2: { split; [done|]. intros [Hk _]. exfalso.
       rewrite (falsy_no_keys h a Hta) in Hk.
       destruct (own_keys h b) as [|k ks]; [done|].
       specialize (Hk k). rewrite elem_of_nil in Hk. apply Hk. left. }
  case_bool_decide as Hlen; simpl.
  - rewrite forallb_forall. split.
    + intros Hall.
      assert (∀ k, k ∈ own_keys h a → k ∈ own_keys h b) as Hsub.
      { intros k Hk. apply list_elem_of_In, Hall in Hk.
        apply andb_true_iff in Hk as [_ Hk]. by apply has_own_keys. }
      split.
      * intros k. split; [apply Hsub|].
        assert (own_keys h a ≡ₚ own_keys h b) as Hperm.
        { apply submseteq_length_Permutation; [by apply NoDup_submseteq | lia]. }
        by rewrite Hperm.
      * intros k Hk. apply list_elem_of_In, Hall in Hk.
        apply andb_true_iff in Hk as [Hk _]. by apply strict_equals_true.
    + intros [Hkeys Hvals] k Hk. apply list_elem_of_In in Hk.
      apply andb_true_iff. split.
      * apply strict_equals_true. auto.
      * apply has_own_keys, Hkeys, Hk.
  - split; [done|]. intros [Hkeys _]. exfalso. apply Hlen.
    apply Permutation_length. symmetry. by apply NoDup_Permutation.
Qed.

Lemma own_props_object h l props :
  h !! l = Some (CObject props) → own_props h (VRef l) = props.
Proof. intros H. unfold own_props. by rewrite H. Qed.

Lemma recognized_fields_NoDup : NoDup recognized_fields.
Proof. apply (bool_decide_unpack (NoDup recognized_fields)). by vm_compute. Qed.

(** Reading a normalized record back gives the values it was made of. *)
Lemma normalized_again h h' l config :
  h' !! l = Some (CObject (normalized h config)) →
  normalized h' (VRef l) = normalized h config.
Proof.
  intros H. unfold normalized at 1, get_own.
  rewrite (own_props_object _ _ _ H). reflexivity.
Qed.

(** C6. For every configuration object x,
    [processIntlConfig(processIntlConfig(x))] is shallow-equal to
    [processIntlConfig(x)]: both normalizations return, the second one
    returns a new record that has the same keys and, under each key, the
    same value as the first, and [shallowEquals] answers true on them in
    either order. *)
Theorem processIntlConfig_idempotent (w : world) (x : value) :
  nullish x = false →
  ∃ c1 w1 c2 w2,
    processIntlConfig x w = Normal c1 w1
    ∧ processIntlConfig c1 w1 = Normal c2 w2
    ∧ shallow_equal (heap w2) c2 c1
    ∧ shallowEquals c2 c1 w2 = Normal true w2
    ∧ shallowEquals c1 c2 w2 = Normal true w2.
Proof.
  intros Hx.
  destruct (alloc_run (CObject (normalized (heap w) x)) w) as (l1 & Hrun1 & Hl1).
  set (w1 := World (<[l1 := CObject (normalized (heap w) x)]> (heap w)) (log w)) in *.
  assert (heap w1 !! l1 = Some (CObject (normalized (heap w) x))) as Hc1
    by apply lookup_insert_eq.
  pose proof (normalized_again _ _ _ _ Hc1) as Hnorm.
  destruct (alloc_run (CObject (normalized (heap w) x)) w1) as (l2 & Hrun2 & Hl2).
  set (w2 := World (<[l2 := CObject (normalized (heap w) x)]> (heap w1)) (log w1)) in *.
  assert (l2 ≠ l1) as Hne by (intros ->; rewrite Hc1 in Hl2; done).
  assert (heap w2 !! l2 = Some (CObject (normalized (heap w) x))) as Hh2
    by apply lookup_insert_eq.
  assert (heap w2 !! l1 = Some (CObject (normalized (heap w) x))) as Hh1
    by (simpl; rewrite lookup_insert_ne by done; exact Hc1).
  assert (own_keys (heap w2) (VRef l1) = recognized_fields) as Hk1
    by (unfold own_keys; by rewrite (own_props_object _ _ _ Hh1)).
  assert (own_keys (heap w2) (VRef l2) = recognized_fields) as Hk2
    by (unfold own_keys; by rewrite (own_props_object _ _ _ Hh2)).
  assert (shallow_equal (heap w2) (VRef l2) (VRef l1)) as Heq.
  { split; [by rewrite Hk1, Hk2|]. intros k _. unfold get_own.
    by rewrite (own_props_object _ _ _ Hh1), (own_props_object _ _ _ Hh2). }
  exists (VRef l1), w1, (VRef l2), w2. split_and!.
  - by rewrite processIntlConfig_run.
  - rewrite processIntlConfig_run by done. by rewrite Hnorm.
  - exact Heq.
  - unfold shallowEquals, read. f_equal.
    apply shallowEqualObjects_spec; rewrite ?Hk1, ?Hk2;
      [apply recognized_fields_NoDup .. | done | exact Heq].
  - unfold shallowEquals, read. f_equal.
    apply shallowEqualObjects_spec; rewrite ?Hk1, ?Hk2;
      [apply recognized_fields_NoDup .. | done |].
    destruct Heq as [Hkeys Hvals]. split; [by intros k; rewrite Hkeys|].
    intros k Hk. symmetry. apply Hvals. by apply Hkeys.
Qed.

(** ** Rich-Text Key Assignment *)

Lemma untouched_but_refl la h : untouched_but la h h.
Proof. by intros l c _ H. Qed.

Lemma untouched_but_trans la h1 h2 h3 :
  untouched_but la h1 h2 → untouched_but la h2 h3 → untouched_but la h1 h3.
Proof. intros H12 H23 l c Hl H. by apply H23, H12. Qed.

Lemma truthy_not_nullish v : truthy v = true → nullish v = false.
Proof. by destruct v. Qed.

(** One round of the reduction, in closed form. *)
Lemma assign_entry_run values la k w :
  nullish values = false →
  let v := get_own (heap w) values k in
  let lf := fresh (dom (heap w)) in
  assign_entry values (VRef la) k w =
    if is_function (heap w) v then
      Normal (VRef la)
        (World (alter (cell_set k (VRef lf)) la
                  (<[lf := CFunction (KeyedParts v)]> (heap w))) (log w))
    else
      Normal (VRef la) (World (alter (cell_set k v) la (heap w)) (log w)).
Proof.
  intros Hn. unfold assign_entry.
  rewrite (bind_normal _ _ _ _ _ (get_run _ _ _ Hn)).
  unfold isFormatXMLElementFn. rewrite bind_run. simpl.
  destruct (is_function (heap w) (get_own (heap w) values k)); reflexivity.
Qed.

Lemma assign_entry_effects values la k w :
  nullish values = false →
  is_Some (heap w !! la) →
  ∃ w', assign_entry values (VRef la) k w = Normal (VRef la) w'
        ∧ untouched_but la (heap w) (heap w')
        ∧ is_Some (heap w' !! la)
        ∧ log w' = log w.
Proof.
  intros Hn Hla. rewrite assign_entry_run by done.
  assert (fresh (dom (heap w)) ≠ la) as Hfresh.
  { intros <-. rewrite alloc_fresh in Hla. by destruct Hla. }
  destruct (is_function _ _); eexists; (split; [reflexivity|]); simpl; split_and!; try done.
  - intros l c Hl H. rewrite lookup_alter_ne by done.
    rewrite lookup_insert_ne; [done|]. intros <-. by rewrite alloc_fresh in H.
  - rewrite lookup_alter_eq, lookup_insert_ne by done.
    destruct Hla as [c ->]. by eexists.
  - intros l c Hl H. by rewrite lookup_alter_ne.
  - rewrite lookup_alter_eq. destruct Hla as [c ->]. by eexists.
Qed.

Lemma reduce_assign_effects values la ks w :
  nullish values = false →
  is_Some (heap w !! la) →
  ∃ w', reduce (assign_entry values) ks (VRef la) w = Normal (VRef la) w'
        ∧ untouched_but la (heap w) (heap w')
        ∧ log w' = log w.
Proof.
  intros Hn. revert w. induction ks as [|k ks IH]; intros w Hla; simpl.
  - exists w. split_and!; [done | apply untouched_but_refl | done].
  - destruct (assign_entry_effects values la k w Hn Hla) as (w1 & Hrun & Hu1 & Hla1 & Hlog1).
    destruct (IH w1 Hla1) as (w' & Hrun' & Hu' & Hlog').
    exists w'. split_and!.
    + by rewrite (bind_normal _ _ _ _ _ Hrun).
    + by eapply untouched_but_trans.
    + congruence.
Qed.

(** Key assignment always returns; it logs nothing and leaves every
    object of the store as it was. *)
Lemma assignUniqueKeys_effects values w :
  ∃ r w', assignUniqueKeysToFormatXMLElementFnArgument values w = Normal r w'
          ∧ heap w ⊆ heap w'
          ∧ log w' = log w.
Proof.
  unfold assignUniqueKeysToFormatXMLElementFnArgument.
  destruct (truthy values) eqn:Ht; simpl.
  2: { exists values, w. done. }
  rewrite bind_run. simpl. unfold new_object.
  destruct (alloc_run (CObject (object_literal [])) w) as (la & Hrun & Hla).
  rewrite (bind_normal _ _ _ _ _ Hrun).
  destruct (reduce_assign_effects values la (own_keys (heap w) values)
              (World (<[la := CObject (object_literal [])]> (heap w)) (log w)))
    as (w' & Hrun' & Hu & Hlog); [by apply truthy_not_nullish | | ].
  { simpl. rewrite lookup_insert_eq. by eexists. }
  exists (VRef la), w'. split_and!; [exact Hrun' | | exact Hlog].
  apply map_subseteq_spec. intros l c Hl.
  assert (l ≠ la) as Hne by (intros ->; by rewrite Hla in Hl).
  apply Hu; [done|]. simpl. by rewrite lookup_insert_ne.
Qed.

Lemma is_function_weaken h h' v :
  h ⊆ h' → allocated h v → is_function h' v = is_function h v.
Proof.
  intros Hsub Hv. destruct v as [| | | | |l]; try done. simpl in *.
  destruct Hv as [c Hc]. by rewrite Hc, (lookup_weaken _ _ _ _ Hc Hsub).
Qed.

Lemma get_own_allocated h v k :
  Forall (λ kv, allocated h kv.2) (own_props h v) → allocated h (get_own h v k).
Proof.
  intros HF. unfold get_own.
  destruct (assoc k (own_props h v)) as [x|] eqn:Hx; [|done]. simpl.
  apply assoc_Some_elem in Hx. by eapply Forall_forall in HF; [|exact Hx].
Qed.

Lemma subseteq_untouched h0 la h h' :
  h0 !! la = None → h0 ⊆ h → untouched_but la h h' → h0 ⊆ h'.
Proof.
  intros Hla Hsub Hu. apply map_subseteq_spec. intros l c Hl.
  apply Hu; [by intros -> ; rewrite Hla in Hl|].
  by eapply lookup_weaken.
Qed.

Lemma assign_prop_other props k v :
  k ≠ "__proto__" → assign_prop props k v = set_prop props k v.
Proof.
  intros Hk. unfold assign_prop.
  by rewrite (proj2 (String.eqb_neq k "__proto__") Hk).
Qed.

Lemma assign_prop_inherited_setter props v :
  "__proto__" ∉ props.*1 → assign_prop props "__proto__" v = props.
Proof.
  intros Hk. unfold assign_prop. apply assoc_None in Hk. by rewrite Hk.
Qed.

Section KeyAssignmentOfObject.
Variables (h0 : gmap loc cell) (l : loc) (props : list (string * value)) (la : loc).
Hypothesis Hl : h0 !! l = Some (CObject props).
Hypothesis Hla : h0 !! la = None.
Hypothesis Hprops : Forall (λ kv, allocated h0 kv.2) props.

Lemma assign_entry_object k D w :
  k ≠ "__proto__" →
  h0 ⊆ heap w →
  heap w !! la = Some (CObject D) →
  ∃ v' w1,
    assign_entry (VRef l) (VRef la) k w = Normal (VRef la) w1
    ∧ untouched_but la (heap w) (heap w1)
    ∧ log w1 = log w
    ∧ heap w1 !! la = Some (CObject (set_prop D k v'))
    ∧ (if is_function h0 (get_own h0 (VRef l) k) then
         ∃ lf, v' = VRef lf ∧ h0 !! lf = None ∧ lf ≠ la
               ∧ heap w1 !! lf = Some (CFunction (KeyedParts (get_own h0 (VRef l) k)))
       else v' = get_own h0 (VRef l) k).
Proof.
  intros Hk Hsub HD.
  assert (get_own (heap w) (VRef l) k = get_own h0 (VRef l) k) as Hv.
  { unfold get_own. by rewrite (own_props_object _ _ _ Hl),
      (own_props_object _ _ _ (lookup_weaken _ _ _ _ Hl Hsub)). }
  assert (is_function (heap w) (get_own h0 (VRef l) k)
          = is_function h0 (get_own h0 (VRef l) k)) as Hfn.
  { apply is_function_weaken; [done|]. apply get_own_allocated.
    by rewrite (own_props_object _ _ _ Hl). }
  assert (fresh (dom (heap w)) ≠ la) as Hfresh.
  { intros <-. by rewrite alloc_fresh in HD. }
  assert (h0 !! fresh (dom (heap w)) = None) as Hfresh0.
  { destruct (h0 !! fresh (dom (heap w))) as [c|] eqn:Hc; [|done].
    pose proof (alloc_fresh w) as Hnone.
    by rewrite (lookup_weaken _ _ _ _ Hc Hsub) in Hnone. }
  rewrite assign_entry_run by done. rewrite Hv, Hfn.
  destruct (is_function h0 (get_own h0 (VRef l) k)) eqn:Hisfn.
  - exists (VRef (fresh (dom (heap w)))). eexists.
    split; [reflexivity|]. simpl. split_and!; [ | done | | ].
    + intros l' c Hl' H. rewrite lookup_alter_ne by done.
      rewrite lookup_insert_ne; [done|]. intros <-. by rewrite alloc_fresh in H.
    + rewrite lookup_alter_eq, lookup_insert_ne by done. rewrite HD. simpl.
      by rewrite assign_prop_other.
    + eexists. split_and!; [done | done | done |].
      rewrite lookup_alter_ne by done. apply lookup_insert_eq.
  - exists (get_own h0 (VRef l) k). eexists.
    split; [reflexivity|]. simpl. split_and!; [ | done | | done].
    + intros l' c Hl' H. by rewrite lookup_alter_ne.
    + rewrite lookup_alter_eq. rewrite HD. simpl. by rewrite assign_prop_other.
Qed.

Lemma reduce_assign_object ks : ∀ D w,
  "__proto__" ∉ ks →
  h0 ⊆ heap w →
  heap w !! la = Some (CObject D) →
  ∃ es w',
    reduce (assign_entry (VRef l)) ks (VRef la) w = Normal (VRef la) w'
    ∧ untouched_but la (heap w) (heap w')
    ∧ log w' = log w
    ∧ heap w' !! la = Some (CObject (foldl (λ a kv, set_prop a kv.1 kv.2) D es))
    ∧ es.*1 = ks
    ∧ Forall2 (λ k e, key_assigned h0 (heap w') (get_own h0 (VRef l) k) e.2) ks es.
Proof.
  induction ks as [|k ks IH]; intros D w Hks Hsub HD; simpl.
  - exists [], w. split_and!; [done | apply untouched_but_refl | done | done | done | constructor].
  - apply not_elem_of_cons in Hks as [Hk Hks].
    destruct (assign_entry_object k D w (not_eq_sym Hk) Hsub HD)
      as (v' & w1 & Hrun & Hu & Hlog & HD1 & Hv').
    destruct (IH (set_prop D k v') w1) as (es & w' & Hrun' & Hu' & Hlog' & HD' & Hkeys & HF);
      [done | by eapply subseteq_untouched | done |].
    exists ((k, v') :: es), w'. split_and!.
    + by rewrite (bind_normal _ _ _ _ _ Hrun).
    + by eapply untouched_but_trans.
    + congruence.
    + exact HD'.
    + csimpl. by rewrite Hkeys.
    + constructor; [|exact HF]. unfold key_assigned. simpl.
      destruct (is_function h0 (get_own h0 (VRef l) k)); [|done].
      destruct Hv' as (lf & -> & Hlf0 & Hne & Hlf). exists lf. split_and!; [done..|].
      by apply Hu'.
Qed.
End KeyAssignmentOfObject.

(** C8 (the code departs from the claim).  For the substitution values
    [{"__proto__": "x", "a": 1}], whose own properties are [__proto__] and
    [a], [assignUniqueKeysToFormatXMLElementFnArgument] returns a new map
    that holds [a] only: the assignment [acc[k] = v] of line 101 runs, for
    [k = "__proto__"], the setter inherited by the new object [{}] and
    creates no property, so the non-function value under [__proto__] is
    not passed through.  The input map is left as it was. *)
Theorem assignUniqueKeys_drops_proto_entry :
  own_props (heap store_with_proto_key) (VRef 1)
    = [("__proto__", VString "x"); ("a", VNumber 1)]
  ∧ ∃ l' w',
      assignUniqueKeysToFormatXMLElementFnArgument (VRef 1) store_with_proto_key
        = Normal (VRef l') w'
      ∧ heap store_with_proto_key !! l' = None
      ∧ heap w' !! l' = Some (CObject [("a", VNumber 1)])
      ∧ has_own (heap w') (VRef l') "__proto__" = false
      ∧ heap w' !! 1%positive
          = Some (CObject [("__proto__", VString "x"); ("a", VNumber 1)]).
Proof.
  split; [reflexivity|].
  eexists _, _. split; [by vm_compute|]. by vm_compute.
Qed.

(** X16. For every substitution-values map without an own property
    named [__proto__] (an object whose entries refer to allocated cells),
    [assignUniqueKeysToFormatXMLElementFnArgument] returns a new map with
    the same keys in the same order, in which every function-valued entry
    is replaced by a newly created key-assigning wrapper of that function
    and every other value is passed through unchanged; the input map, like
    every other object of the store, is left as it was, and nothing is
    logged. *)
Theorem assignUniqueKeys_of_map (w : world) (l : loc) (props : list (string * value)) :
  heap w !! l = Some (CObject props) →
  NoDup props.*1 →
  "__proto__" ∉ props.*1 →
  Forall (λ kv, allocated (heap w) kv.2) props →
  ∃ l' props' w',
    assignUniqueKeysToFormatXMLElementFnArgument (VRef l) w = Normal (VRef l') w'
    ∧ heap w !! l' = None
    ∧ heap w' !! l' = Some (CObject props')
    ∧ props'.*1 = props.*1
    ∧ Forall2 (λ kv kv', key_assigned (heap w) (heap w') kv.2 kv'.2) props props'
    ∧ heap w' !! l = Some (CObject props)
    ∧ heap w ⊆ heap w'
    ∧ log w' = log w.
Proof.
  intros Hl Hnd Hproto Hprops.
  unfold assignUniqueKeysToFormatXMLElementFnArgument. simpl.
  rewrite bind_run. simpl. unfold new_object.
  destruct (alloc_run (CObject (object_literal [])) w) as (la & Hrun & Hla).
  rewrite (bind_normal _ _ _ _ _ Hrun).
  unfold own_keys. rewrite (own_props_object _ _ _ Hl).
  destruct (reduce_assign_object (heap w) l props la Hl Hla Hprops props.*1 []
              (World (<[la := CObject (object_literal [])]> (heap w)) (log w)))
    as (es & w' & Hrun' & Hu & Hlog & Hacc & Hkeys & HF).
  { done. }
  { simpl. by apply insert_subseteq. }
  { simpl. apply lookup_insert_eq. }
  assert (heap w ⊆ heap w') as Hsub.
  { eapply subseteq_untouched; [exact Hla | | exact Hu]. simpl. by apply insert_subseteq. }
  rewrite foldl_set_prop_NoDup in Hacc by (simpl; by rewrite Hkeys).
  exists la, es, w'. split_and!; try done.
  - apply Forall2_same_length_lookup. split.
    + by rewrite <- (length_fmap fst es), Hkeys, length_fmap.
    + intros i [k v] [k' v'] Hi Hi'. simpl.
      rewrite Forall2_lookup in HF. specialize (HF i).
      rewrite list_lookup_fmap, Hi, Hi' in HF. simpl in HF.
      inversion HF as [? ? HP|]; subst. simpl in HP.
      replace (get_own (heap w) (VRef l) k) with v in HP; [done|].
      unfold get_own. rewrite (own_props_object _ _ _ Hl).
      erewrite assoc_elem_NoDup; [done | done |]. by eapply list_elem_of_lookup_2.
  - by eapply lookup_weaken.
Qed.

(** ** The [formatMessage] wrapper *)

Section FormatMessage.
Context {imports : Collaborators}.

(** C10. When the substitution values are [undefined], key assignment
    returns [undefined] itself and leaves the store and the log as they
    were (no map is created), so [formatMessage] called without
    substitution values is the core formatter called with [undefined]
    values, followed by the array check. *)
Theorem formatMessage_without_values (config formatters descriptor : value)
    (w : world) :
  assignUniqueKeysToFormatXMLElementFnArgument VUndefined w = Normal VUndefined w
  ∧ formatMessage config formatters descriptor VUndefined w =
    match coreFormatMessage config formatters descriptor VUndefined w with
    | Normal chunks w2 =>
        if is_array (heap w2) chunks
        then React_Children_toArray chunks w2
        else Normal chunks w2
    | Thrown e w2 => Thrown e w2
    end.
Proof.
  split; [reflexivity|].
  unfold formatMessage. rewrite (bind_normal _ _ _ VUndefined w) by reflexivity.
  rewrite bind_run.
  destruct (coreFormatMessage config formatters descriptor VUndefined w) as [chunks w2|e w2];
    [|done].
  rewrite bind_run. simpl. by destruct (is_array (heap w2) chunks).
Qed.

End FormatMessage.

(** ** Context Builder *)

Lemma alloc_effects c w :
  ∃ l w', alloc c w = Normal (VRef l) w'
          ∧ heap w !! l = None
          ∧ heap w ⊆ heap w'
          ∧ heap w' !! l = Some c
          ∧ log w' = log w.
Proof.
  destruct (alloc_run c w) as (l & Hrun & Hl).
  eexists _, _. split; [exact Hrun|]. simpl.
  split_and!; [done | by apply insert_subseteq | apply lookup_insert_eq | done].
Qed.

Lemma rest_object_run v excluded w :
  nullish v = false →
  rest_object v excluded w =
    alloc (CObject (object_literal
             (filter (λ kv, kv.1 ∉ excluded) (own_props (heap w) v)))) w.
Proof. intros H. unfold rest_object. rewrite H. reflexivity. Qed.

Lemma createFormatters_accessors scoped kinds : ∀ acc w,
  ∃ acc' w',
    reduce (λ acc kind,
       fn ← alloc (CFunction (Accessor kind scoped));
       mret (acc ++ [(kind, fn)])) kinds acc w = Normal acc' w'
    ∧ heap w ⊆ heap w'
    ∧ log w' = log w.
Proof.
  induction kinds as [|kind kinds IH]; intros acc w; simpl.
  - by exists acc, w.
  - destruct (alloc_effects (CFunction (Accessor kind scoped)) w)
      as (l & w1 & Hrun & _ & Hsub & _ & Hlog).
    destruct (IH (acc ++ [(kind, VRef l)]) w1) as (acc' & w' & Hrun' & Hsub' & Hlog').
    exists acc', w'. split_and!.
    + rewrite bind_run, bind_run, Hrun. exact Hrun'.
    + by etrans.
    + congruence.
Qed.

Lemma createFormatters_run cache w :
  ∃ lf F w',
    createFormatters cache w = Normal (VRef lf) w'
    ∧ heap w !! lf = None
    ∧ heap w ⊆ heap w'
    ∧ heap w' !! lf = Some (CObject F)
    ∧ log w' = log w ++ [CreateFormatters cache].
Proof.
  unfold createFormatters. rewrite bind_run. simpl.
  set (w0 := World (heap w) (log w ++ [CreateFormatters cache])).
  assert (∃ scoped w1,
    (if decide (cache = VUndefined) then createIntlCache else mret cache) w0
      = Normal scoped w1 ∧ heap w0 ⊆ heap w1 ∧ log w1 = log w0)
    as (scoped & w1 & Hrun1 & Hsub1 & Hlog1).
  { case_decide.
    - destruct (alloc_effects (CObject []) w0) as (l & w1 & Hrun & _ & Hsub & _ & Hlog).
      by exists (VRef l), w1.
    - by exists cache, w0. }
  rewrite (bind_normal _ _ _ _ _ Hrun1).
  destruct (createFormatters_accessors scoped formatter_kinds [] w1)
    as (acc & w2 & Hrun2 & Hsub2 & Hlog2).
  rewrite (bind_normal _ _ _ _ _ Hrun2).
  destruct (alloc_effects (CObject (object_literal acc)) w2)
    as (lf & w3 & Hrun3 & Hlf & Hsub3 & Hlf3 & Hlog3).
  exists lf, (object_literal acc), w3. split_and!.
  - exact Hrun3.
  - destruct (heap w !! lf) as [c|] eqn:Hc; [|done].
    assert (heap w2 !! lf = Some c) as Hc2; [|by rewrite Hc2 in Hlf].
    eapply lookup_weaken; [exact Hc|]. by etrans.
  - change (heap w0 ⊆ heap w3). etrans; [exact Hsub1|]. by etrans.
  - exact Hlf3.
  - by rewrite Hlog3, Hlog2, Hlog1.
Qed.

Lemma read_run {A} (f : gmap loc cell → A) w : read f w = Normal (f (heap w)) w.
Proof. reflexivity. Qed.

(** In a hypothesis [Ho] about a run, perform the next allocation. *)
Ltac run_alloc Ho :=
  rewrite bind_run in Ho; cbv beta in Ho;
  match type of Ho with
  | context [bind_imported ?f ?args ?w] =>
      change (bind_imported f args w) with (alloc (CFunction (Bound f args)) w) in Ho
  | _ => idtac
  end;
  match type of Ho with
  | context [alloc ?c ?w] =>
      let l := fresh "l" in
      let w' := fresh "w" in
      let Hr := fresh "Hrun" in
      let Hs := fresh "Hsub" in
      let Hg := fresh "Hlog" in
      destruct (alloc_effects c w) as (l & w' & Hr & _ & Hs & _ & Hg);
      rewrite Hr in Ho; cbv beta in Ho
  end.

(** In a hypothesis [Ho] about a run, read a property of a non-nullish
    value, then bind an imported function. *)
Ltac run_get_bind Ho Hn :=
  rewrite (bind_normal _ _ _ _ _ (get_run _ _ _ Hn)) in Ho; cbv beta in Ho;
  run_alloc Ho.

Lemma build_shape_run lrc formatters R w :
  heap w !! lrc = Some (CObject R) →
  nullish formatters = false →
  ∃ ls S w',
    build_shape (VRef lrc) formatters w = Normal (VRef ls) w'
    ∧ heap w !! ls = None
    ∧ heap w ⊆ heap w'
    ∧ log w' = log w
    ∧ heap w' !! ls = Some (CObject S)
    ∧ ∀ k, k ∉ shape_names → assoc k S = assoc k (object_literal R).
Proof.
  intros HR Hn.
  remember (build_shape (VRef lrc) formatters w) as o eqn:Ho.
  unfold build_shape in Ho.
  rewrite (bind_normal _ _ _ _ _ (read_run _ _)) in Ho. cbv beta in Ho.
  rewrite (own_props_object _ _ _ HR) in Ho.
  do 8 run_get_bind Ho Hn.
  run_alloc Ho.
  do 2 run_get_bind Ho Hn.
  unfold new_object in Ho.
  match type of Ho with
  | context [alloc ?c ?w] =>
      destruct (alloc_effects c w) as (ls & w' & Hfinal & Hls & Hsub' & Hcell & Hlog')
  end.
  rewrite Hfinal in Ho. subst o.
  assert (heap w ⊆ heap w10) as Hall
    by (repeat (etrans; [eassumption|]; try done)).
  eexists ls, _, w'. split_and!.
  - reflexivity.
  - destruct (heap w !! ls) as [c|] eqn:Hc; [|done].
    by rewrite (lookup_weaken _ _ _ _ Hc Hall) in Hls.
  - by etrans.
  - congruence.
  - exact Hcell.
  - intros k Hk. apply assoc_object_literal_app.
    intros Hin. apply Hk. exact Hin.
Qed.

Section ContextBuilder.
Context {imports : Collaborators}.

Lemma resolved_props_assoc h arg d k :
  k ≠ "defaultRichTextElements" →
  default VUndefined (assoc k (resolved_props h arg d)) = resolved h arg k.
Proof.
  intros Hk. unfold resolved, resolved_props.
  assert ((k ∉ ([("defaultRichTextElements", d)].*1))
          ∧ (k ∉ ([("defaultRichTextElements", VUndefined)].*1))) as [Hd Hu].
  { split; simpl; rewrite not_elem_of_cons; (split; [done | apply not_elem_of_nil]). }
  rewrite !app_assoc.
  by rewrite (assoc_object_literal_app _ _ _ Hd), (assoc_object_literal_app _ _ _ Hu).
Qed.

Lemma rest_props_NoDup h arg : NoDup (rest_props h arg).*1.
Proof. apply object_literal_keys_NoDup. Qed.

(** A field the configuration has is the resolved field. *)
Lemma resolved_own h arg k v :
  k ≠ "defaultRichTextElements" →
  assoc k (rest_props h arg) = Some v →
  resolved h arg k = v.
Proof.
  intros Hk Hv. unfold resolved, resolved_props.
  rewrite app_assoc, assoc_object_literal_app
    by (simpl; rewrite not_elem_of_cons; split; [done | apply not_elem_of_nil]).
  unfold object_literal. rewrite foldl_app.
  rewrite assoc_foldl_set_prop by apply rest_props_NoDup. by rewrite Hv.
Qed.

(** A field the configuration lacks is the base default. *)
Lemma resolved_default h arg k :
  k ≠ "defaultRichTextElements" →
  assoc k (rest_props h arg) = None →
  resolved h arg k = default VUndefined (assoc k (object_literal DEFAULT_INTL_CONFIG)).
Proof.
  intros Hk Hv. unfold resolved, resolved_props.
  rewrite app_assoc, assoc_object_literal_app
    by (simpl; rewrite not_elem_of_cons; split; [done | apply not_elem_of_nil]).
  unfold object_literal. rewrite foldl_app.
  rewrite assoc_foldl_set_prop by apply rest_props_NoDup. by rewrite Hv.
Qed.

(** The locale checks in closed form. *)
Lemma resolve_locale_run lrc R w :
  heap w !! lrc = Some (CObject R) →
  let locale := default VUndefined (assoc "locale" R) in
  let defaultLocale := default VUndefined (assoc "defaultLocale" R) in
  let onError := default VUndefined (assoc "onError" R) in
  resolve_locale (VRef lrc) w =
    if truthy locale then
      match CanonicalizeLocaleList locale with
      | inl e => Thrown e w
      | inr tags =>
          Normal () (World (heap w)
                       (log w ++ missing_data_events tags locale defaultLocale onError))
      end
    else
      Normal ()
        (World (alter (cell_set "locale"
                         (if truthy defaultLocale then defaultLocale else VString "en"))
                  lrc (heap w))
           (log w ++ if truthy onError
                     then [OnError onError
                             (InvalidConfigError (invalid_config_message defaultLocale))]
                     else [])).
Proof.
  intros HR locale defaultLocale onError.
  assert (∀ k, get (VRef lrc) k w = Normal (default VUndefined (assoc k R)) w) as Hget.
  { intros k. rewrite get_run by done. unfold get_own.
    by rewrite (own_props_object _ _ _ HR). }
  unfold resolve_locale. rewrite !(bind_normal _ _ _ _ _ (Hget _)).
  fold locale defaultLocale onError.
  destruct (truthy locale) eqn:Hloc; simpl.
  - unfold Intl_NumberFormat_supportedLocalesOf, Intl_DateTimeFormat_supportedLocalesOf,
      supportedLocalesOf, missing_data_events.
    destruct (CanonicalizeLocaleList locale) as [e|tags]; [reflexivity|].
    rewrite bind_run. simpl.
    destruct (negb (bool_decide (length (NumberFormat_SupportedLocales tags) ≠ 0%nat))
              && truthy onError); [reflexivity|].
    rewrite bind_run. simpl.
    destruct (negb (bool_decide (length (DateTimeFormat_SupportedLocales tags) ≠ 0%nat))
              && truthy onError); [reflexivity|].
    unfold mret, M_ret. by rewrite app_nil_r; destruct w.
  - destruct (truthy onError) eqn:Hon.
    + rewrite bind_run. simpl. rewrite bind_run. simpl.
      unfold get_own. rewrite (own_props_object _ _ _ HR). reflexivity.
    + rewrite bind_run. simpl. rewrite bind_run. simpl.
      unfold get_own. rewrite (own_props_object _ _ _ HR).
      by rewrite app_nil_r.
Qed.

(** The run of [createIntl] up to the resolved configuration: the
    formatters are made with [cache], and [resolvedConfig] is a new object
    holding the merged properties. *)
Lemma createIntl_prefix arg cache w :
  nullish arg = false →
  ∃ lrc formatters d w1,
    createIntl arg cache w =
      (resolve_locale (VRef lrc) ≫= λ _, build_shape (VRef lrc) formatters) w1
    ∧ nullish formatters = false
    ∧ heap w !! lrc = None
    ∧ heap w ⊆ heap w1
    ∧ heap w1 !! lrc = Some (CObject (resolved_props (heap w) arg d))
    ∧ log w1 = log w ++ [CreateFormatters cache].
Proof.
  intros Hn.
  remember (createIntl arg cache w) as o eqn:Ho. unfold createIntl in Ho.
  rewrite (bind_normal _ _ _ _ _ (get_run _ _ _ Hn)) in Ho. cbv beta in Ho.
  rewrite bind_run, rest_object_run in Ho by done.
  fold (rest_props (heap w) arg) in Ho.
  destruct (alloc_effects (CObject (rest_props (heap w) arg)) w)
    as (lc & w1 & Hrun1 & _ & Hsub1 & Hlc & Hlog1).
  rewrite Hrun1 in Ho.
  destruct (createFormatters_run cache w1) as (lf & F & w2 & Hrun2 & _ & Hsub2 & _ & Hlog2).
  rewrite (bind_normal _ _ _ _ _ Hrun2) in Ho.
  destruct (assignUniqueKeys_effects
              (get_own (heap w) arg "defaultRichTextElements") w2)
    as (d & w3 & Hrun3 & Hsub3 & Hlog3).
  rewrite (bind_normal _ _ _ _ _ Hrun3) in Ho.
  rewrite (bind_normal _ _ _ _ _ (read_run _ _)) in Ho. cbv beta in Ho.
  assert (heap w3 !! lc = Some (CObject (rest_props (heap w) arg))) as Hlc3.
  { eapply lookup_weaken; [exact Hlc|]. by etrans. }
  rewrite (own_props_object _ _ _ Hlc3) in Ho.
  unfold new_object in Ho. fold (resolved_props (heap w) arg d) in Ho.
  rewrite bind_run in Ho.
  destruct (alloc_effects (CObject (resolved_props (heap w) arg d)) w3)
    as (lrc & w4 & Hrun4 & Hlrc & Hsub4 & Hlrc4 & Hlog4).
  rewrite Hrun4 in Ho.
  assert (heap w ⊆ heap w3) as Hsub by (etrans; [exact Hsub1|]; by etrans).
  exists lrc, (VRef lf), d, w4. split_and!.
  - exact Ho.
  - done.
  - destruct (heap w !! lrc) as [c|] eqn:Hc; [|done].
    by rewrite (lookup_weaken _ _ _ _ Hc Hsub) in Hlrc.
  - by etrans.
  - exact Hlrc4.
  - by rewrite Hlog4, Hlog3, Hlog2, Hlog1.
Qed.

Lemma createIntl_nullish arg cache w :
  nullish arg = true → createIntl arg cache w = Thrown TypeError w.
Proof. intros Hn. unfold createIntl, get. rewrite bind_run, Hn. reflexivity. Qed.

Lemma resolved_props_NoDup h arg d : NoDup (resolved_props h arg d).*1.
Proof. apply object_literal_keys_NoDup. Qed.

(** [createIntl] returns whenever the locale is falsy or canonicalizes. *)
Lemma createIntl_returns arg cache w tags :
  nullish arg = false →
  let locale := resolved (heap w) arg "locale" in
  let defaultLocale := resolved (heap w) arg "defaultLocale" in
  let onError := resolved (heap w) arg "onError" in
  (truthy locale = true → CanonicalizeLocaleList locale = inr tags) →
  ∃ ls S w',
    createIntl arg cache w = Normal (VRef ls) w'
    ∧ heap w !! ls = None
    ∧ heap w ⊆ heap w'
    ∧ heap w' !! ls = Some (CObject S)
    ∧ assoc "locale" S = Some (effective_locale locale defaultLocale)
    ∧ log w' = log w ++ CreateFormatters cache
                        :: locale_events tags locale defaultLocale onError.
Proof.
  intros Hn locale defaultLocale onError Hcanon.
  destruct (createIntl_prefix arg cache w Hn)
    as (lrc & formatters & d & w1 & Hrun & Hf & Hlrc & Hsub & HR & Hlog).
  rewrite Hrun, bind_run, (resolve_locale_run _ _ _ HR). cbv zeta.
  rewrite !resolved_props_assoc by done.
  fold locale defaultLocale onError.
  unfold effective_locale, locale_events.
  destruct (truthy locale) eqn:Hloc.
  - rewrite Hcanon by done.
    set (w2 := World (heap w1)
                 (log w1 ++ missing_data_events tags locale defaultLocale onError)).
    destruct (build_shape_run lrc formatters _ w2 HR Hf)
      as (ls & S & w' & Hb & Hls & Hsub' & Hlog' & HS & Hassoc).
    assert (heap w ⊆ heap w2) as Hsub2 by exact Hsub.
    exists ls, S, w'. split_and!; [done | | by etrans | done | | ].
    + destruct (heap w !! ls) as [c|] eqn:Hc; [|done].
      by rewrite (lookup_weaken _ _ _ _ Hc Hsub2) in Hls.
    + rewrite Hassoc by (by apply (bool_decide_unpack (_ ∉ _)); vm_compute).
      rewrite object_literal_NoDup by apply resolved_props_NoDup.
      pose proof (resolved_props_assoc (heap w) arg d "locale" ltac:(done)) as Hx.
      fold locale in Hx.
      destruct (assoc "locale" (resolved_props (heap w) arg d)) as [v|];
        simpl in Hx; [by subst | by rewrite <- Hx in Hloc].
    + rewrite Hlog'. simpl. rewrite Hlog. by rewrite <- app_assoc.
  - set (fb := if truthy defaultLocale then defaultLocale else VString "en").
    set (w2 := World (alter (cell_set "locale" fb) lrc (heap w1)) _).
    assert (heap w2 !! lrc
            = Some (CObject (set_prop (resolved_props (heap w) arg d) "locale" fb))) as HR2.
    { simpl. rewrite lookup_alter_eq. by rewrite HR. }
    destruct (build_shape_run lrc formatters _ w2 HR2 Hf)
      as (ls & S & w' & Hb & Hls & Hsub' & Hlog' & HS & Hassoc).
    assert (heap w ⊆ heap w2) as Hsub2.
    { eapply subseteq_untouched; [exact Hlrc | exact Hsub |].
      intros l c Hl Hc. simpl. by rewrite lookup_alter_ne. }
    exists ls, S, w'. split_and!; [done | | by etrans | done | | ].
    + destruct (heap w !! ls) as [c|] eqn:Hc; [|done].
      by rewrite (lookup_weaken _ _ _ _ Hc Hsub2) in Hls.
    + rewrite Hassoc by (by apply (bool_decide_unpack (_ ∉ _)); vm_compute).
      rewrite object_literal_NoDup by apply set_prop_NoDup, resolved_props_NoDup.
      rewrite assoc_set_prop. by rewrite decide_True.
    + rewrite Hlog'. simpl. rewrite Hlog. by rewrite <- app_assoc.
Qed.

(** [createIntl] throws what canonicalization throws, after the
    formatters have been made. *)
Lemma createIntl_throws arg cache w e :
  nullish arg = false →
  truthy (resolved (heap w) arg "locale") = true →
  CanonicalizeLocaleList (resolved (heap w) arg "locale") = inl e →
  ∃ w', createIntl arg cache w = Thrown e w'
        ∧ heap w ⊆ heap w'
        ∧ log w' = log w ++ [CreateFormatters cache].
Proof.
  intros Hn Hloc Hcanon.
  destruct (createIntl_prefix arg cache w Hn)
    as (lrc & formatters & d & w1 & Hrun & Hf & Hlrc & Hsub & HR & Hlog).
  rewrite Hrun, bind_run, (resolve_locale_run _ _ _ HR). cbv zeta.
  rewrite !resolved_props_assoc by done.
  rewrite Hloc, Hcanon. by exists w1.
Qed.

(** With a falsy locale, [createIntl] returns a shape whose locale is
    [defaultLocale], or [en] when that is falsy too, and an [onError]
    that is supplied is called exactly once, with a configuration error
    whose message interpolates [defaultLocale]. *)
Lemma createIntl_locale_fallback arg cache w :
  nullish arg = false →
  let defaultLocale := resolved (heap w) arg "defaultLocale" in
  let onError := resolved (heap w) arg "onError" in
  truthy (resolved (heap w) arg "locale") = false →
  ∃ ls S w',
    createIntl arg cache w = Normal (VRef ls) w'
    ∧ heap w' !! ls = Some (CObject S)
    ∧ assoc "locale" S =
        Some (if truthy defaultLocale then defaultLocale else VString "en")
    ∧ log w' =
        log w ++ CreateFormatters cache ::
          if truthy onError
          then [OnError onError (InvalidConfigError (invalid_config_message defaultLocale))]
          else [].
Proof.
  intros Hn defaultLocale onError Hloc.
  destruct (createIntl_returns arg cache w [] Hn)
    as (ls & S & w' & Hrun & _ & _ & HS & Hshape & Hlog).
  { intros Ht. by rewrite Hloc in Ht. }
  unfold effective_locale, locale_events in *. rewrite Hloc in *.
  by exists ls, S, w'.
Qed.

(** C2 (the code departs from the claim).  For the configuration
    [{locale: undefined, defaultLocale: undefined, onError: f}],
    [createIntl] returns a shape whose locale is the hard-coded fallback
    [en] and calls [f] exactly once with a configuration error, but the
    diagnostic says that [undefined] is used as fallback: it names the
    absent [defaultLocale], not the fallback locale.  With empty strings
    for both locales the diagnostic names the empty string. *)
Theorem createIntl_fallback_diagnostic_names_defaultLocale (cache : value) :
  (∃ ls S w',
     createIntl (VRef 1) cache store_without_locales = Normal (VRef ls) w'
     ∧ heap w' !! ls = Some (CObject S)
     ∧ assoc "locale" S = Some (VString "en")
     ∧ log w' =
         [CreateFormatters cache;
          OnError (VRef 2)
            (InvalidConfigError
               (dq +:+ "locale" +:+ dq +:+ " was not configured, using "
                +:+ dq +:+ "undefined" +:+ dq
                +:+ " as fallback. See https://formatjs.io/docs/react-intl/api#intlshape for more details"))])
  ∧ (∃ ls S w',
     createIntl (VRef 1) cache store_with_empty_locales = Normal (VRef ls) w'
     ∧ heap w' !! ls = Some (CObject S)
     ∧ assoc "locale" S = Some (VString "en")
     ∧ log w' =
         [CreateFormatters cache;
          OnError (VRef 2)
            (InvalidConfigError
               (dq +:+ "locale" +:+ dq +:+ " was not configured, using "
                +:+ dq +:+ "" +:+ dq
                +:+ " as fallback. See https://formatjs.io/docs/react-intl/api#intlshape for more details"))]).
Proof.
  split.
  - destruct (createIntl_returns (VRef 1) cache store_without_locales [] eq_refl)
      as (ls & S & w' & Hrun & _ & _ & HS & Hloc & Hlog).
    { rewrite (resolved_own _ _ "locale" VUndefined); [done | done | by vm_compute]. }
    rewrite (resolved_own _ _ "locale" VUndefined) in Hloc, Hlog; [|done|by vm_compute..].
    rewrite (resolved_own _ _ "defaultLocale" VUndefined) in Hloc, Hlog; [|done|by vm_compute..].
    rewrite (resolved_own _ _ "onError" (VRef 2)) in Hlog; [|done|by vm_compute].
    by exists ls, S, w'.
  - destruct (createIntl_returns (VRef 1) cache store_with_empty_locales [] eq_refl)
      as (ls & S & w' & Hrun & _ & _ & HS & Hloc & Hlog).
    { rewrite (resolved_own _ _ "locale" (VString "")); [done | done | by vm_compute]. }
    rewrite (resolved_own _ _ "locale" (VString "")) in Hloc, Hlog; [|done|by vm_compute..].
    rewrite (resolved_own _ _ "defaultLocale" (VString "")) in Hloc, Hlog; [|done|by vm_compute..].
    rewrite (resolved_own _ _ "onError" (VRef 2)) in Hlog; [|done|by vm_compute].
    by exists ls, S, w'.
Qed.

Lemma missing_data_events_number tags locale defaultLocale onError :
  NumberFormat_SupportedLocales tags = [] →
  truthy onError = true →
  missing_data_events tags locale defaultLocale onError =
    [OnError onError
       (MissingDataError (missing_data_message "NumberFormat" locale defaultLocale))].
Proof. intros Hnf Hon. unfold missing_data_events. by rewrite Hnf, Hon. Qed.

Lemma missing_data_events_dateTime tags locale defaultLocale onError :
  NumberFormat_SupportedLocales tags ≠ [] →
  DateTimeFormat_SupportedLocales tags = [] →
  truthy onError = true →
  missing_data_events tags locale defaultLocale onError =
    [OnError onError
       (MissingDataError (missing_data_message "DateTimeFormat" locale defaultLocale))].
Proof.
  intros Hnf Hdtf Hon. unfold missing_data_events. rewrite Hdtf, Hon.
  destruct (NumberFormat_SupportedLocales tags); done.
Qed.


(** C3. For every configuration whose locale is present and
    canonicalizes to [tags], with [onError] supplied: when number
    formatting supports none of the tags, or it does but date/time
    formatting supports none, [createIntl] returns a shape whose locale is
    the requested locale, and calls [onError] exactly once, with a
    missing-data diagnostic that names [Intl.NumberFormat] whenever the
    number-format check fails (whatever the date/time check would say) and
    [Intl.DateTimeFormat] otherwise; no other diagnostic is delivered. *)
Theorem createIntl_missing_data_advisory (arg cache : value) (w : world)
    (tags : list string) :
  nullish arg = false →
  let locale := resolved (heap w) arg "locale" in
  let defaultLocale := resolved (heap w) arg "defaultLocale" in
  let onError := resolved (heap w) arg "onError" in
  truthy locale = true →
  CanonicalizeLocaleList locale = inr tags →
  truthy onError = true →
  NumberFormat_SupportedLocales tags = []
    ∨ DateTimeFormat_SupportedLocales tags = [] →
  ∃ ls S w',
    createIntl arg cache w = Normal (VRef ls) w'
    ∧ heap w' !! ls = Some (CObject S)
    ∧ assoc "locale" S = Some locale
    ∧ log w' =
        log w ++
        [CreateFormatters cache;
         OnError onError
           (MissingDataError
              (missing_data_message
                 (if bool_decide (NumberFormat_SupportedLocales tags = [])
                  then "NumberFormat" else "DateTimeFormat")
                 locale defaultLocale))].
Proof.
  intros Hn locale defaultLocale onError Hloc Hcanon Hon Hmissing.
  destruct (createIntl_returns arg cache w tags Hn (λ _, Hcanon))
    as (ls & S & w' & Hrun & _ & _ & HS & Hshape & Hlog).
  fold locale defaultLocale onError in Hshape, Hlog.
  unfold effective_locale, locale_events in *. rewrite Hloc in *.
  exists ls, S, w'. split_and!; [done..|].
  rewrite Hlog. do 2 f_equal.
  case_bool_decide as Hnf.
  - by apply missing_data_events_number.
  - apply missing_data_events_dateTime; [done | by destruct Hmissing | done].
Qed.

Lemma locale_events_OnError tags locale defaultLocale onError e :
  e ∈ locale_events tags locale defaultLocale onError → ∃ err, e = OnError onError err.
Proof.
  unfold locale_events, missing_data_events.
  repeat case_match; rewrite ?list_elem_of_singleton, ?elem_of_nil;
    try done; intros ->; by eexists.
Qed.

(** The three diagnostic branches exclude each other: one call delivers
    at most one diagnostic. *)
Lemma locale_events_at_most_one tags locale defaultLocale onError :
  (length (locale_events tags locale defaultLocale onError) ≤ 1)%nat.
Proof.
  unfold locale_events, missing_data_events. repeat case_match; simpl; lia.
Qed.

(** Whatever a [createIntl] call does, it leaves the objects of the store
    as they were, and the only formatters it makes are made with the
    cache it is given. *)
Lemma createIntl_effects arg cache w :
  heap w ⊆ heap (outcome_world (createIntl arg cache w))
  ∧ ∃ events,
      log (outcome_world (createIntl arg cache w)) = log w ++ events
      ∧ ∀ c, CreateFormatters c ∈ events → c = cache.
Proof.
  destruct (nullish arg) eqn:Hn.
  { rewrite createIntl_nullish by done. simpl. split; [done|].
    exists []. split; [by rewrite app_nil_r|]. intros c Hc. by apply elem_of_nil in Hc. }
  destruct (truthy (resolved (heap w) arg "locale")) eqn:Hloc.
  - destruct (CanonicalizeLocaleList (resolved (heap w) arg "locale")) as [e|tags] eqn:Hc.
    + destruct (createIntl_throws arg cache w e Hn Hloc Hc) as (w' & -> & Hsub & Hlog).
      simpl. split; [done|]. eexists. split; [exact Hlog|].
      intros c Hin. apply list_elem_of_singleton in Hin. congruence.
    + destruct (createIntl_returns arg cache w tags Hn (λ _, Hc))
        as (ls & S & w' & -> & _ & Hsub & _ & _ & Hlog).
      simpl. split; [done|]. eexists. split; [exact Hlog|].
      intros c Hin. apply elem_of_cons in Hin as [Hin|Hin]; [congruence|].
      apply locale_events_OnError in Hin as [err Herr]. discriminate.
  - destruct (createIntl_returns arg cache w [] Hn)
      as (ls & S & w' & -> & _ & Hsub & _ & _ & Hlog).
    { intros H. by rewrite Hloc in H. }
    simpl. split; [done|]. eexists. split; [exact Hlog|].
    intros c Hin. apply elem_of_cons in Hin as [Hin|Hin]; [congruence|].
    apply locale_events_OnError in Hin as [err Herr]. discriminate.
Qed.

(** *** Change-Detection Gate *)

Lemma own_keys_insert h l props v :
  h !! l = None →
  own_keys (<[l := CObject props]> h) v =
    if decide (v = VRef l) then props.*1 else own_keys h v.
Proof.
  intros Hl. unfold own_keys, own_props. case_decide as Hv.
  - subst v. by rewrite lookup_insert_eq.
  - destruct v as [| | | | |l']; try done.
    rewrite lookup_insert_ne; [done | congruence].
Qed.

(** C1. For every state object and props object, with the key names of
    the stored previous configuration pairwise distinct: the props are
    normalized into a new record; if the stored previous configuration is
    shallow-equal to it (same key set, the same value under each key),
    [getDerivedStateFromProps] returns [null], and the rendering library
    keeps the very state object, whose cell has not changed; otherwise it
    returns a new object that holds, under [intl], the shape [createIntl]
    builds from the new record and the cache of the state and, under
    [prevConfig], the new record (or it throws what [createIntl] throws). *)
Theorem getDerivedStateFromProps_gate (props state : value) (w : world) :
  nullish props = false →
  nullish state = false →
  let prevConfig := get_own (heap w) state "prevConfig" in
  let cache := get_own (heap w) state "cache" in
  NoDup (own_keys (heap w) prevConfig) →
  ∃ l,
    let w1 := World (<[l := CObject (normalized (heap w) props)]> (heap w)) (log w) in
    heap w !! l = None
    ∧ processIntlConfig props w = Normal (VRef l) w1
    ∧ (shallow_equal (heap w1) prevConfig (VRef l) →
         getDerivedStateFromProps props state w = Normal VNull w1
         ∧ applyDerivedState props state w = Normal state w1
         ∧ heap w ⊆ heap w1)
    ∧ (¬ shallow_equal (heap w1) prevConfig (VRef l) →
         match createIntl (VRef l) cache w1 with
         | Normal intl w2 =>
             ∃ lp, heap w2 !! lp = None
               ∧ getDerivedStateFromProps props state w =
                   Normal (VRef lp)
                     (World (<[lp := CObject [("intl", intl); ("prevConfig", VRef l)]]>
                               (heap w2)) (log w2))
         | Thrown e w2 => getDerivedStateFromProps props state w = Thrown e w2
         end).
Proof.
  intros Hprops Hstate prevConfig cache Hnd.
  destruct (alloc_run (CObject (normalized (heap w) props)) w) as (l & Hrun & Hl).
  exists l. cbv zeta.
  set (w1 := World (<[l := CObject (normalized (heap w) props)]> (heap w)) (log w)) in *.
  assert (processIntlConfig props w = Normal (VRef l) w1) as Hnorm
    by (by rewrite processIntlConfig_run).
  assert (shallowEqualObjects (heap w1) prevConfig (VRef l) = true
          ↔ shallow_equal (heap w1) prevConfig (VRef l)) as Hspec.
  { apply shallowEqualObjects_spec; simpl; rewrite !own_keys_insert by done.
    - case_decide; [apply recognized_fields_NoDup | done].
    - rewrite decide_True by done. apply recognized_fields_NoDup.
    - by rewrite decide_True. }
  assert (getDerivedStateFromProps props state w =
          (if negb (shallowEqualObjects (heap w1) prevConfig (VRef l))
           then intl ← createIntl (VRef l) cache;
                new_object [("intl", intl); ("prevConfig", VRef l)]
           else mret VNull) w1) as Hgate.
  { unfold getDerivedStateFromProps.
    rewrite !(bind_normal _ _ _ _ _ (get_run _ _ _ Hstate)).
    by rewrite (bind_normal _ _ _ _ _ Hnorm). }
  split_and!; [done | done | |].
  - intros Heq. apply Hspec in Heq. rewrite Heq in Hgate. simpl in Hgate.
    split_and!; [exact Hgate | | by apply insert_subseteq].
    unfold applyDerivedState. by rewrite (bind_normal _ _ _ _ _ Hgate).
  - intros Hneq.
    destruct (shallowEqualObjects (heap w1) prevConfig (VRef l)) eqn:Hb.
    { exfalso. by apply Hneq, Hspec. }
    simpl in Hgate. rewrite bind_run in Hgate.
    destruct (createIntl (VRef l) cache w1) as [intl w2|e w2]; [|exact Hgate].
    exists (fresh (dom (heap w2))). split; [apply alloc_fresh | exact Hgate].
Qed.

(** *** The provider over its lifetime *)

Lemma cache_kept_bind cache w w1 (o : outcome value) :
  heap w ⊆ heap w1 →
  (∃ events, log w1 = log w ++ events ∧ ∀ c, CreateFormatters c ∈ events → c = cache) →
  cache_kept cache w1 o → cache_kept cache w o.
Proof.
  intros Hsub (ev1 & Hlog1 & Hev1) (Hsub' & (ev2 & Hlog2 & Hev2) & Hst).
  split_and!; [by etrans | | done].
  exists (ev1 ++ ev2). split; [by rewrite Hlog2, Hlog1, app_assoc|].
  intros c Hc. apply elem_of_app in Hc as [Hc|Hc]; auto.
Qed.

Lemma no_events (w : world) (cache : value) :
  ∃ events, log w = log w ++ events ∧ ∀ c, CreateFormatters c ∈ events → c = cache.
Proof.
  exists []. split; [by rewrite app_nil_r|]. intros c Hc. by apply elem_of_nil in Hc.
Qed.

Lemma applyDerivedState_cache_kept cache props st w :
  provider_state cache (heap w) st →
  cache_kept cache w (applyDerivedState props st w).
Proof.
  intros (ls & intl0 & prev0 & -> & Hls).
  unfold applyDerivedState, getDerivedStateFromProps.
  assert (∀ k, get (VRef ls) k w =
               Normal (default VUndefined
                         (assoc k [("cache", cache); ("intl", intl0); ("prevConfig", prev0)])) w)
    as Hget.
  { intros k. rewrite get_run by done. unfold get_own.
    by rewrite (own_props_object _ _ _ Hls). }
  rewrite bind_run, !(bind_normal _ _ _ _ _ (Hget _)). simpl assoc. simpl default.
  rewrite bind_run.
  destruct (nullish props) eqn:Hprops.
  { unfold processIntlConfig, get. rewrite bind_run, Hprops. simpl.
    split_and!; [done | apply no_events | done]. }
  rewrite processIntlConfig_run by done.
  destruct (alloc_effects (CObject (normalized (heap w) props)) w)
    as (l & w1 & -> & Hl & Hsub1 & _ & Hlog1).
  unfold shallowEquals. rewrite (bind_normal _ _ _ _ _ (read_run _ _)).
  assert (heap w1 !! ls = Some (CObject [("cache", cache); ("intl", intl0);
                                         ("prevConfig", prev0)])) as Hls1
    by (by eapply lookup_weaken).
  apply (cache_kept_bind cache w w1); [done | rewrite Hlog1; apply no_events |].
  destruct (shallowEqualObjects (heap w1) prev0 (VRef l)); simpl.
  { split_and!; [done | apply no_events |].
    intros st w' [= <- <-]. by exists ls, intl0, prev0. }
  rewrite bind_run.
  destruct (createIntl_effects (VRef l) cache w1) as (Hsub2 & Hev2).
  destruct (createIntl (VRef l) cache w1) as [intl w2|e w2]; cbn [outcome_world] in *; cbv beta iota.
  2: { split_and!; [done | done | done]. }
  apply (cache_kept_bind cache w1 w2); [done | done |].
  unfold new_object.
  destruct (alloc_effects
              (CObject (object_literal [("intl", intl); ("prevConfig", VRef l)])) w2)
    as (lp & w3 & -> & Hlp & Hsub3 & Hlp3 & Hlog3).
  apply (cache_kept_bind cache w2 w3); [done | rewrite Hlog3; apply no_events |].
  assert (heap w3 !! ls = Some (CObject [("cache", cache); ("intl", intl0);
                                         ("prevConfig", prev0)])) as Hls3.
  { eapply lookup_weaken; [exact Hls1|]. by etrans. }
  change (nullish (VRef lp)) with false. cbv iota.
  rewrite (bind_normal _ _ _ _ _ (read_run _ _)). cbv beta.
  rewrite (bind_normal _ _ _ _ _ (read_run _ _)). cbv beta.
  rewrite Hls3, (own_props_object _ _ _ Hlp3).
  destruct (alloc_effects
              (CObject (object_literal
                 ([("cache", cache); ("intl", intl0); ("prevConfig", prev0)] ++
                  object_literal [("intl", intl); ("prevConfig", VRef l)]))) w3)
    as (ls' & w4 & -> & _ & Hsub4 & Hls4 & Hlog4).
  unfold cache_kept. cbn [outcome_world].
  split_and!; [done | rewrite Hlog4; apply no_events |].
  intros st w' [= <- <-]. by exists ls', intl, (VRef l).
Qed.

Lemma updates_cache_kept cache propss : ∀ st w,
  provider_state cache (heap w) st →
  cache_kept cache w (updates propss st w).
Proof.
  induction propss as [|props propss IH]; intros st w Hst; simpl.
  - split_and!; [done | apply no_events |]. by intros st' w' [= <- <-].
  - unfold updates in *. simpl. rewrite bind_run.
    destruct (applyDerivedState_cache_kept cache props st w Hst) as (Hsub & Hev & Hst').
    destruct (applyDerivedState props st w) as [st1 w1|e w1]; cbn [outcome_world] in *; cbv beta iota.
    + apply (cache_kept_bind cache w w1); [done | done |]. by apply IH, Hst'.
    + split_and!; [done | done | done].
Qed.

(** C7. Over the whole life of a provider instance, from its field
    initializers through any sequence of updates: the cache created at
    instantiation is a new object; every [createFormatters] call, hence
    every [createIntl] call, is given that cache; the objects of the
    store, the cache among them, are left as they were; and the state the
    provider ends with has exactly the fields [cache], [intl] and
    [prevConfig], with that same cache under [cache]. *)
Theorem provider_cache_never_replaced (props : value) (propss : list value)
    (w : world) :
  ∃ lcache,
    heap w !! lcache = None
    ∧ (∃ events,
         log (outcome_world (IntlProvider_life props propss w)) = log w ++ events
         ∧ ∀ c, CreateFormatters c ∈ events → c = VRef lcache)
    ∧ ∀ st w', IntlProvider_life props propss w = Normal st w' →
        heap w' !! lcache = Some (CObject [])
        ∧ provider_state (VRef lcache) (heap w') st.
Proof.
  unfold IntlProvider_life, IntlProvider_init, createIntlCache.
  destruct (alloc_effects (CObject []) w) as (lcache & w0 & Hrun0 & Hlc & Hsub0 & Hlc0 & Hlog0).
  exists lcache. split; [done|].
  rewrite bind_run, bind_run, Hrun0.
  assert (∀ o, cache_kept (VRef lcache) w0 o →
    (∃ events, log (outcome_world o) = log w ++ events
               ∧ ∀ c, CreateFormatters c ∈ events → c = VRef lcache)
    ∧ ∀ st w', o = Normal st w' →
        heap w' !! lcache = Some (CObject []) ∧ provider_state (VRef lcache) (heap w') st)
    as Hkept.
  { intros o (Hsub & Hev & Hst). split.
    - by rewrite <- Hlog0.
    - intros st w' ->. split; [|by apply Hst]. by eapply lookup_weaken. }
  apply Hkept. clear Hkept.
  rewrite bind_run.
  destruct (nullish props) eqn:Hprops.
  { unfold processIntlConfig, get. rewrite bind_run, Hprops. simpl.
    split_and!; [done | apply no_events | done]. }
  rewrite processIntlConfig_run by done.
  destruct (alloc_effects (CObject (normalized (heap w0) props)) w0)
    as (l1 & w1 & -> & _ & Hsub1 & _ & Hlog1).
  apply (cache_kept_bind _ w0 w1); [done | rewrite Hlog1; apply no_events |].
  rewrite bind_run.
  destruct (createIntl_effects (VRef l1) (VRef lcache) w1) as (Hsub2 & Hev2).
  destruct (createIntl (VRef l1) (VRef lcache) w1) as [intl w2|e w2]; cbn [outcome_world] in *; cbv beta iota.
  2: { split_and!; [done | done | done]. }
  apply (cache_kept_bind _ w1 w2); [done | done |].
  rewrite bind_run.
  assert (nullish props = false) as Hprops' by done.
  rewrite processIntlConfig_run by done.
  destruct (alloc_effects (CObject (normalized (heap w2) props)) w2)
    as (l3 & w3 & -> & _ & Hsub3 & _ & Hlog3).
  apply (cache_kept_bind _ w2 w3); [done | rewrite Hlog3; apply no_events |].
  unfold new_object.
  destruct (alloc_effects
              (CObject (object_literal
                 [("cache", VRef lcache); ("intl", intl); ("prevConfig", VRef l3)])) w3)
    as (ls & w4 & -> & _ & Hsub4 & Hls & Hlog4).
  apply (cache_kept_bind _ w3 w4); [done | rewrite Hlog4; apply no_events |].
  apply updates_cache_kept. by exists ls, intl, (VRef l3).
Qed.
End ContextBuilder.

(** ** Further properties of the module *)

Lemma own_props_weaken h h' v :
  h ⊆ h' → allocated h v → own_props h' v = own_props h v.
Proof.
  intros Hsub Hv. destruct v as [| | | | |l]; try done. simpl in *.
  destruct Hv as [c Hc]. by rewrite Hc, (lookup_weaken _ _ _ _ Hc Hsub).
Qed.

Lemma get_own_weaken h h' v k :
  h ⊆ h' → allocated h v → get_own h' v k = get_own h v k.
Proof. intros Hsub Hv. unfold get_own. by rewrite (own_props_weaken h h'). Qed.

Lemma allocated_weaken h h' v : h ⊆ h' → allocated h v → allocated h' v.
Proof.
  intros Hsub Hv. destruct v as [| | | | |l]; try done. simpl in *.
  destruct Hv as [c Hc]. exists c. by eapply lookup_weaken.
Qed.

Lemma assoc_normalized h config k :
  k ∈ recognized_fields → assoc k (normalized h config) = Some (get_own h config k).
Proof.
  intros Hk. apply assoc_elem_NoDup.
  - change ((normalized h config).*1) with recognized_fields.
    apply recognized_fields_NoDup.
  - unfold normalized. apply list_elem_of_fmap. by exists k.
Qed.

Lemma assoc_object_literal_app_in entries extra k v :
  NoDup extra.*1 →
  assoc k extra = Some v →
  assoc k (object_literal (entries ++ extra)) = Some v.
Proof.
  intros Hnd Hv. unfold object_literal. rewrite foldl_app.
  rewrite assoc_foldl_set_prop by done. by rewrite Hv.
Qed.

Lemma alloc_effects_full c w :
  ∃ l w', alloc c w = Normal (VRef l) w'
          ∧ heap w !! l = None
          ∧ heap w ⊆ heap w'
          ∧ heap w' !! l = Some c
          ∧ log w' = log w
          ∧ heap w' = <[l := c]> (heap w).
Proof.
  destruct (alloc_run c w) as (l & Hrun & Hl).
  eexists _, _. split; [exact Hrun|]. simpl.
  split_and!; [done | by apply insert_subseteq | apply lookup_insert_eq | done | done].
Qed.

(** In a hypothesis [Ho] about a run of [build_shape] from world [w0]:
    read an accessor of the formatters as it was in [w0], bind, and keep
    what is known of the new cell; [Hall] relates [w0] to the current
    world. *)
Ltac shape_alloc Ho Hall :=
  rewrite bind_run in Ho; cbv beta in Ho;
  match type of Ho with
  | context [bind_imported ?f ?args ?w] =>
      change (bind_imported f args w) with (alloc (CFunction (Bound f args)) w) in Ho
  end;
  match type of Ho with
  | context [alloc ?c ?w] =>
      let l := fresh "l" in
      let w' := fresh "w" in
      let Hr := fresh "Hrun" in
      let Hs := fresh "Hsub" in
      let Hc := fresh "Hcell" in
      let Hg := fresh "Hlog" in
      destruct (alloc_effects c w) as (l & w' & Hr & _ & Hs & Hc & Hg);
      rewrite Hr in Ho; cbv beta iota in Ho; clear Hr;
      let Hall' := fresh "Hall" in
      assert (Hall' := transitivity Hall Hs); clear Hall; rename Hall' into Hall
  end.

Ltac shape_get_alloc Ho Hn Ha Hall :=
  rewrite (bind_normal _ _ _ _ _ (get_run _ _ _ Hn)) in Ho; cbv beta in Ho;
  try rewrite (get_own_weaken _ _ _ _ Hall Ha) in Ho;
  shape_alloc Ho Hall.

(** The shape in detail: besides the resolved configuration it holds the
    formatters and the eleven bound functions, which take precedence over
    properties of the same name. *)
Lemma build_shape_anatomy lrc formatters R w :
  heap w !! lrc = Some (CObject R) →
  nullish formatters = false →
  allocated (heap w) formatters →
  ∃ ls S w',
    build_shape (VRef lrc) formatters w = Normal (VRef ls) w'
    ∧ heap w !! ls = None
    ∧ heap w ⊆ heap w'
    ∧ log w' = log w
    ∧ heap w' !! ls = Some (CObject S)
    ∧ (∀ k, k ∉ shape_names → assoc k S = assoc k (object_literal R))
    ∧ assoc "formatters" S = Some formatters
    ∧ Forall (bound_to (heap w') S (VRef lrc) formatters) capabilities.
Proof.
  intros HR Hn Ha.
  remember (build_shape (VRef lrc) formatters w) as o eqn:Ho.
  unfold build_shape in Ho.
  rewrite (bind_normal _ _ _ _ _ (read_run _ _)) in Ho. cbv beta in Ho.
  rewrite (own_props_object _ _ _ HR) in Ho.
  assert (heap w ⊆ heap w) as Hall by done.
  do 8 shape_get_alloc Ho Hn Ha Hall.
  shape_alloc Ho Hall.
  do 2 shape_get_alloc Ho Hn Ha Hall.
  unfold new_object in Ho.
  match type of Ho with
  | context [alloc ?c ?w] =>
      destruct (alloc_effects c w) as (ls & w' & Hfinal & Hls & Hsub' & Hcell' & Hlog')
  end.
  rewrite Hfinal in Ho. subst o.
  assert (heap w ⊆ heap w') as Hend by (by etrans).
  eexists ls, _, w'. split_and!.
  - reflexivity.
  - destruct (heap w !! ls) as [c|] eqn:Hc; [|done].
    by rewrite (lookup_weaken _ _ _ _ Hc Hall) in Hls.
  - done.
  - congruence.
  - exact Hcell'.
  - intros k Hk. apply assoc_object_literal_app.
    intros Hin. apply Hk. exact Hin.
  - apply assoc_object_literal_app_in; [|reflexivity].
    apply (bool_decide_unpack (NoDup _)). by vm_compute.
  - repeat constructor; unfold bound_to; cbn [fst snd];
      rewrite ?(get_own_weaken _ _ _ _ Hend Ha);
      (eexists; split;
       [ apply assoc_object_literal_app_in;
         [apply (bool_decide_unpack (NoDup _)); by vm_compute | reflexivity]
       | eapply lookup_weaken; [eassumption|];
         repeat (etrans; [eassumption|]; try done) ]).
Qed.


Lemma assoc_object_literal_snoc entries k v :
  assoc k (object_literal (entries ++ [(k, v)])) = Some v.
Proof.
  unfold object_literal. rewrite foldl_app. simpl.
  rewrite assoc_set_prop. by rewrite decide_True.
Qed.

Lemma assoc_rest (excluded : list string) (props : list (string * value)) k :
  k ∉ excluded → assoc k (filter (λ kv, kv.1 ∉ excluded) props) = assoc k props.
Proof.
  intros HQ. induction props as [|[k0 v0] rest IH]; [done|].
  rewrite filter_cons. simpl. destruct (decide (k0 ∉ excluded)) as [HQ0|HQ0]; simpl.
  - by rewrite IH.
  - destruct (String.eqb_spec k k0) as [->|]; [done | exact IH].
Qed.

Lemma rest_NoDup (excluded : list string) (props : list (string * value)) :
  NoDup props.*1 → NoDup (filter (λ kv, kv.1 ∉ excluded) props).*1.
Proof.
  induction props as [|[k0 v0] rest IH]; [done|].
  csimpl. intros [Hk0 Hnd]%NoDup_cons. rewrite filter_cons. simpl.
  destruct (decide (k0 ∉ excluded)); [|by apply IH]. csimpl.
  apply NoDup_cons. split; [|by apply IH].
  intros Hin. apply Hk0. apply list_elem_of_fmap in Hin as ([k v] & -> & Hin).
  apply list_elem_of_filter in Hin as [_ Hin]. apply list_elem_of_fmap. by exists (k, v).
Qed.

Lemma rest_props_assoc h arg k :
  NoDup (own_keys h arg) →
  k ≠ "defaultRichTextElements" →
  assoc k (rest_props h arg) = assoc k (own_props h arg).
Proof.
  intros Hnd Hk. unfold rest_props.
  rewrite object_literal_NoDup by (apply rest_NoDup; exact Hnd).
  apply assoc_rest.
  rewrite not_elem_of_cons. split; [done | apply not_elem_of_nil].
Qed.

Lemma assoc_in_keys props k : is_Some (assoc k props) ↔ k ∈ props.*1.
Proof.
  pose proof (assoc_None props k) as Hnone.
  destruct (assoc k props) as [v|] eqn:Hv.
  - split; [|by eexists]. intros _.
    destruct (decide (k ∈ props.*1)) as [|Hn]; [done|]. by apply Hnone in Hn.
  - split; [by intros [? ?]|]. intros Hk. exfalso. by apply Hnone.
Qed.

Lemma Forall2_impl_Forall {A B} (P : A → Prop) (R R' : A → B → Prop) l k :
  Forall P l → Forall2 R l k → (∀ x y, P x → R x y → R' x y) → Forall2 R' l k.
Proof.
  intros HP HR Himpl. revert HP.
  induction HR as [|x y l k Hxy HR IH]; intros HP; [constructor|].
  apply Forall_cons in HP as [Hx HP]. constructor; auto.
Qed.

Lemma key_assigned_weaken h0 h h' h'' v v' :
  h0 ⊆ h → h' ⊆ h'' → allocated h0 v →
  key_assigned h h' v v' → key_assigned h0 h'' v v'.
Proof.
  intros Hsub Hsub' Hv. unfold key_assigned.
  rewrite (is_function_weaken h0 h) by done.
  destruct (is_function h0 v); [|done].
  intros (lf & -> & Hlf & Hcell). exists lf. split_and!; [done | |].
  - destruct (h0 !! lf) as [c|] eqn:Hc; [|done].
    by rewrite (lookup_weaken _ _ _ _ Hc Hsub) in Hlf.
  - by eapply lookup_weaken.
Qed.

(** Key assignment on an object of the store, in detail. *)
Lemma assignUniqueKeys_object_run (w : world) (l : loc) (props : list (string * value)) :
  heap w !! l = Some (CObject props) →
  NoDup props.*1 →
  "__proto__" ∉ props.*1 →
  Forall (λ kv, allocated (heap w) kv.2) props →
  ∃ l' props' w',
    assignUniqueKeysToFormatXMLElementFnArgument (VRef l) w = Normal (VRef l') w'
    ∧ heap w !! l' = None
    ∧ heap w' !! l' = Some (CObject props')
    ∧ props'.*1 = props.*1
    ∧ Forall2 (λ kv kv', key_assigned (heap w) (heap w') kv.2 kv'.2) props props'
    ∧ heap w ⊆ heap w'
    ∧ log w' = log w.
Proof.
  intros Hl Hnd Hproto Hprops.
  unfold assignUniqueKeysToFormatXMLElementFnArgument. simpl.
  rewrite bind_run. simpl. unfold new_object.
  destruct (alloc_run (CObject (object_literal [])) w) as (la & Hrun & Hla).
  rewrite (bind_normal _ _ _ _ _ Hrun).
  unfold own_keys. rewrite (own_props_object _ _ _ Hl).
  destruct (reduce_assign_object (heap w) l props la Hl Hla Hprops props.*1 []
              (World (<[la := CObject (object_literal [])]> (heap w)) (log w)))
    as (es & w' & Hrun' & Hu & Hlog & Hacc & Hkeys & HF).
  { done. }
  { simpl. by apply insert_subseteq. }
  { simpl. apply lookup_insert_eq. }
  assert (heap w ⊆ heap w') as Hsub.
  { eapply subseteq_untouched; [exact Hla | | exact Hu]. simpl. by apply insert_subseteq. }
  rewrite foldl_set_prop_NoDup in Hacc by (simpl; by rewrite Hkeys).
  exists la, es, w'. split_and!; try done.
  apply Forall2_same_length_lookup. split.
  - by rewrite <- (length_fmap fst es), Hkeys, length_fmap.
  - intros i [k v] [k' v'] Hi Hi'. simpl.
    rewrite Forall2_lookup in HF. specialize (HF i).
    rewrite list_lookup_fmap, Hi, Hi' in HF. simpl in HF.
    inversion HF as [? ? HP|]; subst. simpl in HP.
    replace (get_own (heap w) (VRef l) k) with v in HP; [done|].
    unfold get_own. rewrite (own_props_object _ _ _ Hl).
    erewrite assoc_elem_NoDup; [done | done |]. by eapply list_elem_of_lookup_2.
Qed.

Lemma recognized_not_shape_name k : k ∈ recognized_fields → k ∉ shape_names.
Proof.
  assert (Forall (λ k, k ∉ shape_names) recognized_fields) as HF.
  { apply (bool_decide_unpack (Forall _ _)). by vm_compute. }
  intros Hk. by eapply Forall_forall in HF.
Qed.

Section CreateIntlProperties.
Context {imports : Collaborators}.

Lemma resolved_props_own h arg d k v :
  k ≠ "defaultRichTextElements" →
  assoc k (rest_props h arg) = Some v →
  assoc k (resolved_props h arg d) = Some v.
Proof.
  intros Hk Hv. unfold resolved_props.
  rewrite app_assoc, assoc_object_literal_app
    by (simpl; rewrite not_elem_of_cons; split; [done | apply not_elem_of_nil]).
  unfold object_literal. rewrite foldl_app.
  rewrite assoc_foldl_set_prop by apply rest_props_NoDup. by rewrite Hv.
Qed.

(** The run of [createIntl] up to the resolved configuration, with the
    run of key assignment on the rich-text elements inside it. *)
Lemma createIntl_prefix_full arg cache w :
  nullish arg = false →
  ∃ lrc formatters d w2 w3 w1,
    createIntl arg cache w =
      (resolve_locale (VRef lrc) ≫= λ _, build_shape (VRef lrc) formatters) w1
    ∧ nullish formatters = false
    ∧ allocated (heap w1) formatters
    ∧ heap w !! lrc = None
    ∧ heap w ⊆ heap w1
    ∧ heap w1 !! lrc = Some (CObject (resolved_props (heap w) arg d))
    ∧ log w1 = log w ++ [CreateFormatters cache]
    ∧ heap w ⊆ heap w2
    ∧ assignUniqueKeysToFormatXMLElementFnArgument
        (get_own (heap w) arg "defaultRichTextElements") w2 = Normal d w3
    ∧ heap w3 ⊆ heap w1
    ∧ heap w3 !! lrc = None.
Proof.
  intros Hn.
  remember (createIntl arg cache w) as o eqn:Ho. unfold createIntl in Ho.
  rewrite (bind_normal _ _ _ _ _ (get_run _ _ _ Hn)) in Ho. cbv beta in Ho.
  rewrite bind_run, rest_object_run in Ho by done.
  fold (rest_props (heap w) arg) in Ho.
  destruct (alloc_effects (CObject (rest_props (heap w) arg)) w)
    as (lc & w1 & Hrun1 & _ & Hsub1 & Hlc & Hlog1).
  rewrite Hrun1 in Ho.
  destruct (createFormatters_run cache w1) as (lf & F & w2 & Hrun2 & _ & Hsub2 & Hlf & Hlog2).
  rewrite (bind_normal _ _ _ _ _ Hrun2) in Ho.
  destruct (assignUniqueKeys_effects
              (get_own (heap w) arg "defaultRichTextElements") w2)
    as (d & w3 & Hrun3 & Hsub3 & Hlog3).
  rewrite (bind_normal _ _ _ _ _ Hrun3) in Ho.
  rewrite (bind_normal _ _ _ _ _ (read_run _ _)) in Ho. cbv beta in Ho.
  assert (heap w3 !! lc = Some (CObject (rest_props (heap w) arg))) as Hlc3.
  { eapply lookup_weaken; [exact Hlc|]. by etrans. }
  rewrite (own_props_object _ _ _ Hlc3) in Ho.
  unfold new_object in Ho. fold (resolved_props (heap w) arg d) in Ho.
  rewrite bind_run in Ho.
  destruct (alloc_effects (CObject (resolved_props (heap w) arg d)) w3)
    as (lrc & w4 & Hrun4 & Hlrc & Hsub4 & Hlrc4 & Hlog4).
  rewrite Hrun4 in Ho.
  assert (heap w ⊆ heap w3) as Hsub by (etrans; [exact Hsub1|]; by etrans).
  exists lrc, (VRef lf), d, w2, w3, w4. split_and!.
  - exact Ho.
  - done.
  - simpl. exists (CObject F). eapply lookup_weaken; [exact Hlf|]. by etrans.
  - destruct (heap w !! lrc) as [c|] eqn:Hc; [|done].
    by rewrite (lookup_weaken _ _ _ _ Hc Hsub) in Hlrc.
  - by etrans.
  - exact Hlrc4.
  - by rewrite Hlog4, Hlog3, Hlog2, Hlog1.
  - etrans; [exact Hsub1 | exact Hsub2].
  - exact Hrun3.
  - exact Hsub4.
  - exact Hlrc.
Qed.

(** A returning run of [createIntl] in detail. *)
Lemma createIntl_anatomy arg cache w tags :
  nullish arg = false →
  let locale := resolved (heap w) arg "locale" in
  let defaultLocale := resolved (heap w) arg "defaultLocale" in
  let onError := resolved (heap w) arg "onError" in
  (truthy locale = true → CanonicalizeLocaleList locale = inr tags) →
  ∃ lrc R formatters d w2 w3 ls S w',
    createIntl arg cache w = Normal (VRef ls) w'
    ∧ heap w !! lrc = None
    ∧ heap w !! ls = None
    ∧ heap w ⊆ heap w'
    ∧ heap w' !! lrc = Some (CObject R)
    ∧ NoDup R.*1
    ∧ assoc "locale" R = Some (effective_locale locale defaultLocale)
    ∧ (∀ k, k ≠ "locale" → assoc k R = assoc k (resolved_props (heap w) arg d))
    ∧ heap w' !! ls = Some (CObject S)
    ∧ (∀ k, k ∉ shape_names → assoc k S = assoc k R)
    ∧ assoc "formatters" S = Some formatters
    ∧ Forall (bound_to (heap w') S (VRef lrc) formatters) capabilities
    ∧ heap w ⊆ heap w2
    ∧ assignUniqueKeysToFormatXMLElementFnArgument
        (get_own (heap w) arg "defaultRichTextElements") w2 = Normal d w3
    ∧ heap w3 ⊆ heap w'
    ∧ log w' = log w ++ CreateFormatters cache
                        :: locale_events tags locale defaultLocale onError.
Proof.
  intros Hn locale defaultLocale onError Hcanon.
  destruct (createIntl_prefix_full arg cache w Hn)
    as (lrc & formatters & d & w2 & w3 & w1 & Hrun & Hf & Hfa & Hlrc & Hsub & HR & Hlog
        & Hsub2 & Hassign & Hsub3 & Hlrc3).
  rewrite Hrun, bind_run, (resolve_locale_run _ _ _ HR). cbv zeta.
  rewrite !resolved_props_assoc by done.
  fold locale defaultLocale onError.
  unfold effective_locale, locale_events.
  destruct (truthy locale) eqn:Hloc.
  - rewrite Hcanon by done.
    set (w4 := World (heap w1)
                 (log w1 ++ missing_data_events tags locale defaultLocale onError)).
    destruct (build_shape_anatomy lrc formatters _ w4 HR Hf Hfa)
      as (ls & S & w' & Hb & Hls & Hsub' & Hlog' & HS & Hassoc & Hfs & Hcaps).
    assert (heap w ⊆ heap w4) as Hsub4 by exact Hsub.
    exists lrc, (resolved_props (heap w) arg d), formatters, d, w2, w3, ls, S, w'.
    split_and!; try done.
    + destruct (heap w !! ls) as [c|] eqn:Hc; [|done].
      by rewrite (lookup_weaken _ _ _ _ Hc Hsub4) in Hls.
    + by etrans.
    + by eapply lookup_weaken.
    + apply resolved_props_NoDup.
    + pose proof (resolved_props_assoc (heap w) arg d "locale" ltac:(done)) as Hx.
      fold locale in Hx.
      destruct (assoc "locale" (resolved_props (heap w) arg d)) as [v|];
        simpl in Hx; [by subst | by rewrite <- Hx in Hloc].
    + intros k Hk. rewrite Hassoc by done.
      by rewrite object_literal_NoDup by apply resolved_props_NoDup.
    + by etrans.
    + rewrite Hlog'. simpl. rewrite Hlog. by rewrite <- app_assoc.
  - set (fb := if truthy defaultLocale then defaultLocale else VString "en").
    set (w4 := World (alter (cell_set "locale" fb) lrc (heap w1)) _).
    assert (heap w4 !! lrc
            = Some (CObject (set_prop (resolved_props (heap w) arg d) "locale" fb))) as HR2.
    { simpl. rewrite lookup_alter_eq. by rewrite HR. }
    assert (untouched_but lrc (heap w1) (heap w4)) as Hu.
    { intros l c Hl Hc. simpl. by rewrite lookup_alter_ne. }
    assert (allocated (heap w4) formatters) as Hfa4.
    { destruct formatters as [| | | | |lf]; try done. simpl in Hfa.
      change (is_Some (alter (cell_set "locale" fb) lrc (heap w1) !! lf)).
      destruct Hfa as [c Hc]. destruct (decide (lrc = lf)) as [Heq|Hne].
      - rewrite Heq, lookup_alter_eq, Hc. by eexists.
      - rewrite lookup_alter_ne by done. rewrite Hc. by eexists. }
    destruct (build_shape_anatomy lrc formatters _ w4 HR2 Hf Hfa4)
      as (ls & S & w' & Hb & Hls & Hsub' & Hlog' & HS & Hassoc & Hfs & Hcaps).
    assert (heap w ⊆ heap w4) as Hsub4
      by (eapply subseteq_untouched; [exact Hlrc | exact Hsub | exact Hu]).
    assert (heap w3 ⊆ heap w4) as Hsub34
      by (eapply subseteq_untouched; [exact Hlrc3 | exact Hsub3 | exact Hu]).
    exists lrc, (set_prop (resolved_props (heap w) arg d) "locale" fb),
      formatters, d, w2, w3, ls, S, w'.
    split_and!; try done.
    + destruct (heap w !! ls) as [c|] eqn:Hc; [|done].
      by rewrite (lookup_weaken _ _ _ _ Hc Hsub4) in Hls.
    + by etrans.
    + by eapply lookup_weaken.
    + apply set_prop_NoDup, resolved_props_NoDup.
    + rewrite assoc_set_prop. by rewrite decide_True.
    + intros k Hk. rewrite assoc_set_prop. by rewrite decide_False.
    + intros k Hk. rewrite Hassoc by done.
      by rewrite object_literal_NoDup by apply set_prop_NoDup, resolved_props_NoDup.
    + by etrans.
    + rewrite Hlog'. simpl. rewrite Hlog. by rewrite <- app_assoc.
Qed.
Lemma resolved_of_normalized h h1 l x k :
  h1 !! l = Some (CObject (normalized h x)) →
  k ∈ recognized_fields →
  k ≠ "defaultRichTextElements" →
  assoc k (rest_props h1 (VRef l)) = Some (get_own h x k).
Proof.
  intros Hl Hk Hne. rewrite rest_props_assoc; [| |done].
  - rewrite (own_props_object _ _ _ Hl). by apply assoc_normalized.
  - unfold own_keys. rewrite (own_props_object _ _ _ Hl). apply recognized_fields_NoDup.
Qed.

Lemma missing_data_events_supported tags locale defaultLocale onError :
  NumberFormat_SupportedLocales tags ≠ [] →
  DateTimeFormat_SupportedLocales tags ≠ [] →
  missing_data_events tags locale defaultLocale onError = [].
Proof.
  intros Hnf Hdtf. unfold missing_data_events.
  destruct (NumberFormat_SupportedLocales tags); [done|].
  destruct (DateTimeFormat_SupportedLocales tags); done.
Qed.



Lemma createIntl_log arg cache w :
  nullish arg = false →
  ∃ diagnostics,
    log (outcome_world (createIntl arg cache w)) =
      log w ++ CreateFormatters cache :: diagnostics
    ∧ (length diagnostics ≤ 1)%nat
    ∧ ∀ ev, ev ∈ diagnostics →
        ∃ err, ev = OnError (resolved (heap w) arg "onError") err.
Proof.
  intros Hn.
  destruct (truthy (resolved (heap w) arg "locale")) eqn:Hloc.
  - destruct (CanonicalizeLocaleList (resolved (heap w) arg "locale")) as [e|tags] eqn:Hc.
    + destruct (createIntl_throws arg cache w e Hn Hloc Hc) as (w' & -> & _ & Hlog).
      exists []. simpl. split_and!; [done | lia |]. intros ev Hev. by apply elem_of_nil in Hev.
    + destruct (createIntl_returns arg cache w tags Hn (λ _, Hc))
        as (ls & S & w' & -> & _ & _ & _ & _ & Hlog).
      eexists. simpl. split_and!; [exact Hlog | apply locale_events_at_most_one |].
      intros ev. apply locale_events_OnError.
  - destruct (createIntl_returns arg cache w [] Hn)
      as (ls & S & w' & -> & _ & _ & _ & _ & Hlog).
    { intros Ht. by rewrite Hloc in Ht. }
    eexists. simpl. split_and!; [exact Hlog | apply locale_events_at_most_one |].
    intros ev. apply locale_events_OnError.
Qed.

(** X1. A locale that is present but malformed makes [createIntl]
    throw what the platform throws, after the formatters have been
    made; [onError] is not called and no object of the store changes. *)
Theorem createIntl_malformed_locale_throws (arg cache : value) (w : world) (e : exn) :
  nullish arg = false →
  truthy (resolved (heap w) arg "locale") = true →
  CanonicalizeLocaleList (resolved (heap w) arg "locale") = inl e →
  ∃ w', createIntl arg cache w = Thrown e w'
        ∧ heap w ⊆ heap w'
        ∧ log w' = log w ++ [CreateFormatters cache].
Proof. apply createIntl_throws. Qed.

(** X2. Whatever a configuration object holds and whether the call
    returns or throws, [createIntl] makes the formatters exactly once,
    with the cache it is given, before any diagnostic, and delivers at
    most one diagnostic, to the [onError] of the resolved
    configuration. *)
Theorem createIntl_calls (arg cache : value) (w : world) :
  nullish arg = false →
  ∃ diagnostics,
    log (outcome_world (createIntl arg cache w)) =
      log w ++ CreateFormatters cache :: diagnostics
    ∧ (length diagnostics ≤ 1)%nat
    ∧ ∀ ev, ev ∈ diagnostics →
        ∃ err, ev = OnError (resolved (heap w) arg "onError") err.
Proof. apply createIntl_log. Qed.

(** X3. A locale that both number formatting and date/time formatting
    support produces no diagnostic, even with [onError] supplied: the
    call returns a shape with the requested locale and the log gains
    the making of the formatters only. *)
Theorem createIntl_supported_locale_silent (arg cache : value) (w : world)
    (tags : list string) :
  nullish arg = false →
  let locale := resolved (heap w) arg "locale" in
  truthy locale = true →
  CanonicalizeLocaleList locale = inr tags →
  NumberFormat_SupportedLocales tags ≠ [] →
  DateTimeFormat_SupportedLocales tags ≠ [] →
  ∃ ls S w',
    createIntl arg cache w = Normal (VRef ls) w'
    ∧ heap w' !! ls = Some (CObject S)
    ∧ assoc "locale" S = Some locale
    ∧ log w' = log w ++ [CreateFormatters cache].
Proof.
  intros Hn locale Hloc Hcanon Hnf Hdtf.
  destruct (createIntl_returns arg cache w tags Hn (λ _, Hcanon))
    as (ls & S & w' & Hrun & _ & _ & HS & Hshape & Hlog).
  fold locale in Hshape, Hlog.
  unfold effective_locale, locale_events in *. rewrite Hloc in *.
  rewrite missing_data_events_supported in Hlog by done.
  by exists ls, S, w'.
Qed.

(** X4. [createIntl] never changes an object that existed before the
    call, whatever it is given and however it ends: the configuration
    passed in, the cache and every other cell of the store are as they
    were; the fallback locale is written to the resolved copy only. *)
Theorem createIntl_preserves_store (arg cache : value) (w : world) (l : loc) (c : cell) :
  heap w !! l = Some c →
  heap (outcome_world (createIntl arg cache w)) !! l = Some c.
Proof.
  intros Hl. destruct (createIntl_effects arg cache w) as [Hsub _].
  by eapply lookup_weaken.
Qed.

(** X5. Precedence of configuration over defaults, lines 143 to 147: for
    every property name other than [locale], [defaultRichTextElements]
    and the names the shape adds, the shape holds the configuration's
    own property whenever the configuration has one, be it [undefined],
    and the property of [DEFAULT_INTL_CONFIG] only when the
    configuration has no such property. *)
Theorem createIntl_field_precedence (arg cache : value) (w : world)
    (tags : list string) :
  nullish arg = false →
  NoDup (own_keys (heap w) arg) →
  (truthy (resolved (heap w) arg "locale") = true →
   CanonicalizeLocaleList (resolved (heap w) arg "locale") = inr tags) →
  ∃ ls S w',
    createIntl arg cache w = Normal (VRef ls) w'
    ∧ heap w' !! ls = Some (CObject S)
    ∧ ∀ k, k ∉ shape_names → k ≠ "locale" → k ≠ "defaultRichTextElements" →
        default VUndefined (assoc k S) =
          if bool_decide (k ∈ own_keys (heap w) arg)
          then get_own (heap w) arg k
          else default VUndefined (assoc k (object_literal DEFAULT_INTL_CONFIG)).
Proof.
  intros Hn Hnd Hcanon.
  destruct (createIntl_anatomy arg cache w tags Hn Hcanon)
    as (lrc & R & formatters & d & w2 & w3 & ls & S & w' & Hrun & _ & _ & _ & _ & _ & _
        & HR & HS & Hshape & _).
  exists ls, S, w'. split_and!; [done | done |].
  intros k Hk Hloc Hrte.
  rewrite Hshape, HR by done. rewrite resolved_props_assoc by done.
  case_bool_decide as Hin.
  - apply assoc_in_keys in Hin as [v Hv]. unfold get_own. rewrite Hv. simpl.
    apply resolved_own; [done|]. by rewrite rest_props_assoc.
  - apply resolved_default; [done|]. rewrite rest_props_assoc by done.
    by apply assoc_None.
Qed.


(** X7. The rich-text elements of the shape are the key-assigned copy
    of the configuration's, lines 140 to 146: for a configuration whose
    [defaultRichTextElements] is a map without an own property named
    [__proto__], the shape holds a new map with the same keys whose
    functions are new key-assigning wrappers, and the configuration's own
    map is left as it was. *)
Theorem createIntl_rich_text_elements_key_assigned (arg cache : value) (w : world)
    (tags : list string) (l : loc) (props : list (string * value)) :
  nullish arg = false →
  (truthy (resolved (heap w) arg "locale") = true →
   CanonicalizeLocaleList (resolved (heap w) arg "locale") = inr tags) →
  get_own (heap w) arg "defaultRichTextElements" = VRef l →
  heap w !! l = Some (CObject props) →
  NoDup props.*1 →
  "__proto__" ∉ props.*1 →
  Forall (λ kv, allocated (heap w) kv.2) props →
  ∃ ls S w' l' props',
    createIntl arg cache w = Normal (VRef ls) w'
    ∧ heap w' !! ls = Some (CObject S)
    ∧ assoc "defaultRichTextElements" S = Some (VRef l')
    ∧ heap w !! l' = None
    ∧ heap w' !! l' = Some (CObject props')
    ∧ props'.*1 = props.*1
    ∧ Forall2 (λ kv kv', key_assigned (heap w) (heap w') kv.2 kv'.2) props props'
    ∧ heap w' !! l = Some (CObject props).
Proof.
  intros Hn Hcanon Hraw Hl Hnd Hproto Hprops.
  destruct (createIntl_anatomy arg cache w tags Hn Hcanon)
    as (lrc & R & formatters & d & w2 & w3 & ls & S & w' & Hrun & _ & _ & Hsub & _ & _
        & _ & HR & HS & Hshape & _ & _ & Hsub2 & Hassign & Hsub3 & _).
  rewrite Hraw in Hassign.
  destruct (assignUniqueKeys_object_run w2 l props)
    as (l' & props' & w3' & Hrun' & Hl' & Hcell & Hkeys & HF & _ & _).
  { by eapply lookup_weaken. }
  { done. }
  { done. }
  { eapply Forall_impl; [exact Hprops|]. intros kv. by apply allocated_weaken. }
  rewrite Hrun' in Hassign. injection Hassign as <- <-.
  exists ls, S, w', l', props'. split_and!; try done.
  - rewrite Hshape by (apply (bool_decide_unpack (_ ∉ _)); by vm_compute).
    rewrite HR by done. unfold resolved_props.
    rewrite app_assoc. apply assoc_object_literal_snoc.
  - destruct (heap w !! l') as [c|] eqn:Hc; [|done].
    by rewrite (lookup_weaken _ _ _ _ Hc Hsub2) in Hl'.
  - by eapply lookup_weaken.
  - eapply Forall2_impl_Forall; [exact Hprops | exact HF |].
    intros kv kv' Hkv. by apply key_assigned_weaken.
  - by eapply lookup_weaken.
Qed.

(** X8. Building from a normalized configuration, as the provider does:
    [createIntl(processIntlConfig(x))] takes every recognized field from
    [x] and none from [DEFAULT_INTL_CONFIG], because the normalized record
    has all ten properties, [undefined] ones included.  So the shape's
    locale is [x.locale], else [x.defaultLocale], else [en], and its other
    recognized fields are those of [x]. *)
Theorem createIntl_of_normalized_ignores_defaults (x cache : value) (w : world)
    (tags : list string) :
  nullish x = false →
  let locale := get_own (heap w) x "locale" in
  let defaultLocale := get_own (heap w) x "defaultLocale" in
  (truthy locale = true → CanonicalizeLocaleList locale = inr tags) →
  ∃ c w1 ls S w',
    processIntlConfig x w = Normal c w1
    ∧ createIntl c cache w1 = Normal (VRef ls) w'
    ∧ heap w' !! ls = Some (CObject S)
    ∧ assoc "locale" S = Some (effective_locale locale defaultLocale)
    ∧ ∀ k, k ∈ recognized_fields → k ≠ "locale" → k ≠ "defaultRichTextElements" →
        assoc k S = Some (get_own (heap w) x k).
Proof.
  intros Hx locale defaultLocale Hcanon.
  destruct (alloc_effects (CObject (normalized (heap w) x)) w)
    as (l & w1 & Hrun1 & _ & _ & Hl & _).
  assert (∀ k, k ∈ recognized_fields → k ≠ "defaultRichTextElements" →
               resolved (heap w1) (VRef l) k = get_own (heap w) x k) as Hres.
  { intros k Hk Hne. apply resolved_own; [done|]. by eapply resolved_of_normalized. }
  assert (resolved (heap w1) (VRef l) "locale" = locale) as Hlocale
    by (apply Hres; [apply (bool_decide_unpack (_ ∈ _)); by vm_compute | done]).
  assert (resolved (heap w1) (VRef l) "defaultLocale" = defaultLocale) as Hdefault
    by (apply Hres; [apply (bool_decide_unpack (_ ∈ _)); by vm_compute | done]).
  destruct (createIntl_anatomy (VRef l) cache w1 tags eq_refl)
    as (lrc & R & formatters & d & w2 & w3 & ls & S & w' & Hrun & _ & _ & _ & _ & _
        & Hloc & HR & HS & Hshape & _).
  { by rewrite Hlocale. }
  rewrite Hlocale, Hdefault in Hloc.
  exists (VRef l), w1, ls, S, w'. split_and!; [| done | done | |].
  - by rewrite processIntlConfig_run.
  - rewrite Hshape; [exact Hloc|]. apply (bool_decide_unpack (_ ∉ _)). by vm_compute.
  - intros k Hk Hne Hrte.
    rewrite Hshape by (by apply recognized_not_shape_name).
    rewrite HR by done. apply resolved_props_own; [done|].
    by eapply resolved_of_normalized.
Qed.

End CreateIntlProperties.

(** *** The provider between updates *)

Section ProviderUpdates.
Context {imports : Collaborators}.

Lemma normalized_weaken h h' v :
  h ⊆ h' → allocated h v → normalized h' v = normalized h v.
Proof. intros Hsub Hv. unfold normalized, get_own. by rewrite (own_props_weaken h h'). Qed.

Lemma settled_weaken h h' st P : h ⊆ h' → settled h st P → settled h' st P.
Proof.
  intros Hsub (ls & cache & intl & lp & -> & Hls & Hlp & HP).
  exists ls, cache, intl, lp. split_and!; [done | | | done]; by eapply lookup_weaken.
Qed.

Lemma same_fields_weaken h h' props P :
  h ⊆ h' → allocated h props → same_fields h props P → same_fields h' props P.
Proof. intros Hsub Hp Hf k Hk. rewrite (get_own_weaken h) by done. by apply Hf. Qed.

Lemma same_fields_normalized h props : same_fields h props (normalized h props).
Proof. intros k Hk. by rewrite assoc_normalized. Qed.

(** [getDerivedStateFromProps] up to the comparison. *)
Lemma getDerivedStateFromProps_run props state w :
  nullish props = false → nullish state = false →
  ∃ l w1,
    processIntlConfig props w = Normal (VRef l) w1
    ∧ heap w !! l = None
    ∧ heap w ⊆ heap w1
    ∧ heap w1 !! l = Some (CObject (normalized (heap w) props))
    ∧ log w1 = log w
    ∧ getDerivedStateFromProps props state w =
        (if negb (shallowEqualObjects (heap w1)
                    (get_own (heap w) state "prevConfig") (VRef l))
         then intl ← createIntl (VRef l) (get_own (heap w) state "cache");
              new_object [("intl", intl); ("prevConfig", VRef l)]
         else mret VNull) w1.
Proof.
  intros Hp Hs.
  destruct (alloc_effects (CObject (normalized (heap w) props)) w)
    as (l & w1 & Hrun & Hl & Hsub & Hl1 & Hlog).
  assert (processIntlConfig props w = Normal (VRef l) w1) as Hnorm
    by (by rewrite processIntlConfig_run).
  exists l, w1. split_and!; try done.
  unfold getDerivedStateFromProps.
  rewrite !(bind_normal _ _ _ _ _ (get_run _ _ _ Hs)).
  by rewrite (bind_normal _ _ _ _ _ Hnorm).
Qed.

(** On two records over the recognized fields, the comparison is the
    comparison of the ten fields. *)
Lemma shallowEqualObjects_records h lp (P : list (string * value)) l
    (Q : list (string * value)) :
  h !! lp = Some (CObject P) → P.*1 = recognized_fields →
  h !! l = Some (CObject Q) → Q.*1 = recognized_fields →
  shallowEqualObjects h (VRef lp) (VRef l) = true ↔
  ∀ k, k ∈ recognized_fields →
       default VUndefined (assoc k P) = default VUndefined (assoc k Q).
Proof.
  intros Hlp HP Hl HQ.
  assert (own_keys h (VRef lp) = recognized_fields) as Hkp
    by (unfold own_keys; by rewrite (own_props_object _ _ _ Hlp)).
  assert (own_keys h (VRef l) = recognized_fields) as Hkl
    by (unfold own_keys; by rewrite (own_props_object _ _ _ Hl)).
  rewrite shallowEqualObjects_spec.
  - unfold shallow_equal, get_own. rewrite Hkp, Hkl.
    rewrite (own_props_object _ _ _ Hlp), (own_props_object _ _ _ Hl).
    split; [by intros [_ Hv] | by intros Hv].
  - rewrite Hkp. apply recognized_fields_NoDup.
  - rewrite Hkl. apply recognized_fields_NoDup.
  - by rewrite Hkl.
Qed.

Lemma gate_compares_fields props st P w l w1 :
  settled (heap w) st P →
  heap w ⊆ heap w1 →
  heap w1 !! l = Some (CObject (normalized (heap w) props)) →
  shallowEqualObjects (heap w1) (get_own (heap w) st "prevConfig") (VRef l) = true
  ↔ same_fields (heap w) props P.
Proof.
  intros (ls & cache & intl & lp & -> & Hls & Hlp & HP) Hsub Hl.
  unfold get_own at 1. rewrite (own_props_object _ _ _ Hls). simpl.
  rewrite (shallowEqualObjects_records _ lp P l (normalized (heap w) props));
    [| by eapply lookup_weaken | done | done | done].
  unfold same_fields. split; intros Hf k Hk.
  - rewrite Hf by done. by rewrite assoc_normalized.
  - rewrite assoc_normalized by done. simpl. symmetry. by apply Hf.
Qed.

(** An update with props that agree with the stored record is no update. *)
Lemma applyDerivedState_noop props st P w :
  settled (heap w) st P →
  nullish props = false →
  same_fields (heap w) props P →
  ∃ w', applyDerivedState props st w = Normal st w'
        ∧ log w' = log w
        ∧ heap w ⊆ heap w'.
Proof.
  intros Hst Hp Hf.
  assert (nullish st = false) as Hs by (by destruct Hst as (ls & ? & ? & ? & -> & _)).
  destruct (getDerivedStateFromProps_run props st w Hp Hs)
    as (l & w1 & _ & _ & Hsub & Hl1 & Hlog & Hgate).
  apply (gate_compares_fields props st P w l w1 Hst Hsub Hl1) in Hf.
  rewrite Hf in Hgate. simpl in Hgate.
  exists w1. split_and!; try done.
  unfold applyDerivedState. by rewrite (bind_normal _ _ _ _ _ Hgate).
Qed.

(** After an update that returns, the state is a provider state whose
    record agrees with the props of the update. *)
Lemma applyDerivedState_settled props st P w st1 w1 :
  settled (heap w) st P →
  applyDerivedState props st w = Normal st1 w1 →
  heap w ⊆ heap w1
  ∧ ∃ P1, settled (heap w1) st1 P1 ∧ same_fields (heap w) props P1.
Proof.
  intros Hst Hrun.
  assert (nullish st = false) as Hs by (by destruct Hst as (ls & ? & ? & ? & -> & _)).
  destruct (nullish props) eqn:Hp.
  { exfalso. unfold applyDerivedState, getDerivedStateFromProps in Hrun.
    rewrite bind_run, !(bind_normal _ _ _ _ _ (get_run _ _ _ Hs)) in Hrun.
    unfold processIntlConfig, get in Hrun. rewrite bind_run, Hp in Hrun.
    discriminate Hrun. }
  destruct (getDerivedStateFromProps_run props st w Hp Hs)
    as (l & w0 & _ & _ & Hsub & Hl1 & Hlog & Hgate).
  pose proof (gate_compares_fields props st P w l w0 Hst Hsub Hl1) as Hcmp.
  unfold applyDerivedState in Hrun. rewrite bind_run, Hgate in Hrun.
  destruct (shallowEqualObjects (heap w0) (get_own (heap w) st "prevConfig") (VRef l)).
  { simpl in Hrun. injection Hrun as <- <-. split; [done|].
    exists P. split; [by eapply settled_weaken | by apply Hcmp]. }
  destruct Hst as (ls & cache & intl0 & lp & -> & Hls & Hlp & HP).
  assert (get_own (heap w) (VRef ls) "cache" = cache) as Hcache
    by (unfold get_own; by rewrite (own_props_object _ _ _ Hls)).
  rewrite Hcache in Hrun. clear Hgate Hcmp.
  cbn [negb] in Hrun. cbv iota in Hrun. rewrite bind_run in Hrun.
  destruct (createIntl_effects (VRef l) cache w0) as (Hsub2 & _).
  destruct (createIntl (VRef l) cache w0) as [intl w2|e w2];
    cbn [outcome_world] in *; [|discriminate Hrun].
  cbv beta iota in Hrun. unfold new_object in Hrun.
  destruct (alloc_effects
              (CObject (object_literal [("intl", intl); ("prevConfig", VRef l)])) w2)
    as (lq & w3 & Hrun3 & _ & Hsub3 & Hlq & _).
  rewrite Hrun3 in Hrun.
  change (nullish (VRef lq)) with false in Hrun. cbv iota in Hrun.
  rewrite (bind_normal _ _ _ _ _ (read_run _ _)) in Hrun. cbv beta in Hrun.
  rewrite (bind_normal _ _ _ _ _ (read_run _ _)) in Hrun. cbv beta in Hrun.
  assert (heap w ⊆ heap w3) as Hsub03 by (etrans; [exact Hsub|]; by etrans).
  rewrite (own_props_object _ _ _ (lookup_weaken _ _ _ _ Hls Hsub03)),
    (own_props_object _ _ _ Hlq) in Hrun.
  destruct (alloc_effects
              (CObject (object_literal
                 ([("cache", cache); ("intl", intl0); ("prevConfig", VRef lp)] ++
                  object_literal [("intl", intl); ("prevConfig", VRef l)]))) w3)
    as (ls' & w4 & Hrun4 & _ & Hsub4 & Hls4 & _).
  rewrite Hrun4 in Hrun. injection Hrun as <- <-.
  split; [by etrans|].
  exists (normalized (heap w) props). split; [|apply same_fields_normalized].
  exists ls', cache, intl, l. split_and!; [done | exact Hls4 | | done].
  eapply lookup_weaken; [exact Hl1|]. etrans; [exact Hsub2|]. by etrans.
Qed.

Lemma updates_noop propss : ∀ st P w,
  settled (heap w) st P →
  Forall (λ p, nullish p = false ∧ allocated (heap w) p
               ∧ same_fields (heap w) p P) propss →
  ∃ w', updates propss st w = Normal st w'
        ∧ log w' = log w
        ∧ heap w ⊆ heap w'.
Proof.
  induction propss as [|p propss IH]; intros st P w Hst HF.
  - by exists w.
  - apply Forall_cons in HF as [(Hn & Ha & Hf) HF].
    destruct (applyDerivedState_noop p st P w Hst Hn Hf) as (w1 & Hrun & Hlog & Hsub).
    destruct (IH st P w1) as (w' & Hrun' & Hlog' & Hsub').
    { by eapply settled_weaken. }
    { eapply Forall_impl; [exact HF|]. intros q (Hqn & Hqa & Hqf).
      split_and!; [done | by eapply allocated_weaken | by eapply same_fields_weaken]. }
    exists w'. split_and!; [| congruence | by etrans].
    unfold updates in *. simpl. by rewrite (bind_normal _ _ _ _ _ Hrun).
Qed.

(** The field initializers, up to the [createIntl] call and after it. *)
Lemma IntlProvider_init_run props w :
  nullish props = false → allocated (heap w) props →
  ∃ lcache l1 w1,
    heap w !! lcache = None
    ∧ heap w ⊆ heap w1
    ∧ log w1 = log w
    ∧ match createIntl (VRef l1) (VRef lcache) w1 with
      | Normal intl w2 =>
          ∃ st w4, IntlProvider_init props w = Normal st w4
                   ∧ heap w2 ⊆ heap w4
                   ∧ log w4 = log w2
                   ∧ settled (heap w4) st (normalized (heap w) props)
      | Thrown e w2 => IntlProvider_init props w = Thrown e w2
      end.
Proof.
  intros Hp Ha. unfold IntlProvider_init, createIntlCache.
  destruct (alloc_effects (CObject []) w) as (lcache & w0 & Hrun0 & Hlc & Hsub0 & _ & Hlog0).
  rewrite bind_run, Hrun0, bind_run, processIntlConfig_run by done.
  destruct (alloc_effects (CObject (normalized (heap w0) props)) w0)
    as (l1 & w1 & -> & _ & Hsub1 & _ & Hlog1).
  exists lcache, l1, w1. split_and!; [done | by etrans | congruence |].
  rewrite bind_run.
  destruct (createIntl_effects (VRef l1) (VRef lcache) w1) as (Hsub2 & _).
  destruct (createIntl (VRef l1) (VRef lcache) w1) as [intl w2|e w2];
    cbn [outcome_world] in *; [|done].
  rewrite bind_run, processIntlConfig_run by done.
  destruct (alloc_effects (CObject (normalized (heap w2) props)) w2)
    as (l3 & w3 & -> & _ & Hsub3 & Hl3 & Hlog3).
  unfold new_object.
  destruct (alloc_effects
              (CObject (object_literal
                 [("cache", VRef lcache); ("intl", intl); ("prevConfig", VRef l3)])) w3)
    as (ls & w4 & -> & _ & Hsub4 & Hls & Hlog4).
  exists (VRef ls), w4. split_and!; [done | by etrans | congruence |].
  exists ls, (VRef lcache), intl, l3. split_and!; [done | exact Hls | | done].
  rewrite <- (normalized_weaken (heap w) (heap w2)); [by eapply lookup_weaken | | done].
  etrans; [exact Hsub0|]. by etrans.
Qed.

(** X9. On a provider state, whose previous configuration is a record
    over the ten recognized fields, [getDerivedStateFromProps] returns
    [null] exactly when each of the ten fields of the props is the value
    the record holds; whatever else the props carry, [children] for one,
    plays no role.  In the other case it returns a new object or throws,
    never [null]. *)
Theorem getDerivedStateFromProps_null_iff_same_fields (props st : value)
    (P : list (string * value)) (w : world) :
  nullish props = false →
  settled (heap w) st P →
  (∃ w', getDerivedStateFromProps props st w = Normal VNull w')
  ↔ same_fields (heap w) props P.
Proof.
  intros Hp Hst.
  assert (nullish st = false) as Hs by (by destruct Hst as (ls & ? & ? & ? & -> & _)).
  destruct (getDerivedStateFromProps_run props st w Hp Hs)
    as (l & w1 & _ & _ & Hsub & Hl1 & _ & Hgate).
  rewrite <- (gate_compares_fields props st P w l w1 Hst Hsub Hl1).
  rewrite Hgate.
  destruct (shallowEqualObjects (heap w1) (get_own (heap w) st "prevConfig") (VRef l)); simpl.
  { split; [done|]. intros _. by exists w1. }
  split; [|done]. intros [w' Hrun]. exfalso.
  rewrite bind_run in Hrun.
  destruct (createIntl (VRef l) (get_own (heap w) st "cache") w1) as [intl w2|e w2];
    [|discriminate Hrun].
  unfold new_object in Hrun.
  destruct (alloc_effects
              (CObject (object_literal [("intl", intl); ("prevConfig", VRef l)])) w2)
    as (lq & w3 & Hrun3 & _).
  rewrite Hrun3 in Hrun. discriminate Hrun.
Qed.

(** X10. Once an update has gone through, with whatever props and whether
    it rebuilt the shape or not, an update with props that agree with
    those on the ten recognized fields changes nothing: the state object
    stays the same one and nothing is logged, so [createIntl] is not
    called. *)
Theorem update_with_same_fields_keeps_state (props props' st : value)
    (P : list (string * value)) (w : world) (st1 : value) (w1 : world) :
  settled (heap w) st P →
  nullish props' = false →
  allocated (heap w) props' →
  (∀ k, k ∈ recognized_fields → get_own (heap w) props' k = get_own (heap w) props k) →
  applyDerivedState props st w = Normal st1 w1 →
  ∃ w2, applyDerivedState props' st1 w1 = Normal st1 w2
        ∧ log w2 = log w1.
Proof.
  intros Hst Hp' Ha' Hsame Hrun.
  destruct (applyDerivedState_settled props st P w st1 w1 Hst Hrun)
    as (Hsub & P1 & Hst1 & Hf).
  destruct (applyDerivedState_noop props' st1 P1 w1 Hst1 Hp') as (w2 & Hrun2 & Hlog2 & _).
  { apply (same_fields_weaken (heap w)); [done | done |].
    intros k Hk. rewrite Hsame by done. by apply Hf. }
  by exists w2.
Qed.

(** X11. A provider that is re-rendered, any number of times, with props
    that agree with the props of its instantiation on the ten recognized
    fields keeps the state its field initializers made: the formatters
    are made exactly once over its whole life, with the cache made at
    instantiation, and what is logged besides are the diagnostics, at most
    one, of that one [createIntl] call. *)
Theorem provider_rerender_builds_once (props : value) (propss : list value)
    (w : world) :
  nullish props = false →
  allocated (heap w) props →
  Forall (λ p, nullish p = false ∧ allocated (heap w) p
               ∧ ∀ k, k ∈ recognized_fields →
                   get_own (heap w) p k = get_own (heap w) props k) propss →
  (∀ st w1, IntlProvider_init props w = Normal st w1 →
     ∃ w', IntlProvider_life props propss w = Normal st w' ∧ log w' = log w1)
  ∧ ∃ lcache diagnostics,
      heap w !! lcache = None
      ∧ log (outcome_world (IntlProvider_life props propss w)) =
          log w ++ CreateFormatters (VRef lcache) :: diagnostics
      ∧ (length diagnostics ≤ 1)%nat
      ∧ ∀ c, CreateFormatters c ∉ diagnostics.
Proof.
  intros Hp Ha HF.
  destruct (IntlProvider_init_run props w Hp Ha)
    as (lcache & l1 & w1 & Hlc & Hsub1 & Hlog1 & Hinit).
  destruct (createIntl_log (VRef l1) (VRef lcache) w1 eq_refl)
    as (diagnostics & Hlog & Hlen & Hdiag).
  assert (∀ c, CreateFormatters c ∉ diagnostics) as Hnone.
  { intros c Hc. apply Hdiag in Hc as [err Herr]. discriminate Herr. }
  destruct (createIntl_effects (VRef l1) (VRef lcache) w1) as (Hsub2 & _).
  unfold IntlProvider_life. rewrite bind_run.
  destruct (createIntl (VRef l1) (VRef lcache) w1) as [intl w2|e w2];
    cbn [outcome_world] in *.
  2: { rewrite Hinit. split; [done|].
       exists lcache, diagnostics. cbn [outcome_world]. split_and!; try done. congruence. }
  destruct Hinit as (st & w4 & -> & Hsub4 & Hlog4 & Hst).
  destruct (updates_noop propss st (normalized (heap w) props) w4 Hst)
    as (w' & Hrun' & Hlog' & _).
  { assert (heap w ⊆ heap w4) as Hsub.
    { etrans; [exact Hsub1|]. by etrans. }
    eapply Forall_impl; [exact HF|]. intros q (Hqn & Hqa & Hqf).
    split_and!; [done | by eapply allocated_weaken |].
    apply (same_fields_weaken (heap w)); [done | done |].
    intros k Hk. rewrite Hqf by done. by apply same_fields_normalized. }
  rewrite Hrun'. split.
  - intros st' w1' [= <- <-]. by exists w'.
  - exists lcache, diagnostics. cbn [outcome_world]. split_and!; try done. congruence.
Qed.

End ProviderUpdates.

(** *** Key assignment and the normalizer at the edges *)

Lemma props_eq_of_keys_values (props props' : list (string * value)) :
  props'.*1 = props.*1 →
  Forall2 (λ kv kv', kv'.2 = kv.2) props props' →
  props' = props.
Proof.
  intros Hk HF. revert Hk.
  induction HF as [|[k v] [k' v'] props props' Hv HF IH]; simpl; intros Hk; [done|].
  simpl in Hv. injection Hk as -> Hk. subst v'. f_equal. by apply IH.
Qed.

Lemma assignUniqueKeys_truthy_run values w :
  truthy values = true →
  ∃ la w',
    assignUniqueKeysToFormatXMLElementFnArgument values w = Normal (VRef la) w'
    ∧ heap w !! la = None
    ∧ heap w ⊆ heap w'
    ∧ log w' = log w.
Proof.
  intros Ht. unfold assignUniqueKeysToFormatXMLElementFnArgument. rewrite Ht. simpl.
  rewrite bind_run. simpl. unfold new_object.
  destruct (alloc_run (CObject (object_literal [])) w) as (la & Hrun & Hla).
  rewrite (bind_normal _ _ _ _ _ Hrun).
  destruct (reduce_assign_effects values la (own_keys (heap w) values)
              (World (<[la := CObject (object_literal [])]> (heap w)) (log w)))
    as (w' & Hrun' & Hu & Hlog); [by apply truthy_not_nullish | |].
  { simpl. rewrite lookup_insert_eq. by eexists. }
  exists la, w'. split_and!; [done | done | | done].
  eapply subseteq_untouched; [exact Hla | | exact Hu]. simpl. by apply insert_subseteq.
Qed.


(** X13. A map that holds no function and has no own property named
    [__proto__] is copied as it is: key assignment returns a new object
    with the same properties, in the same order and with the same values,
    objects among them by reference, and makes no wrapper. *)
Theorem assignUniqueKeys_without_functions_copies (w : world) (l : loc)
    (props : list (string * value)) :
  heap w !! l = Some (CObject props) →
  NoDup props.*1 →
  "__proto__" ∉ props.*1 →
  Forall (λ kv, allocated (heap w) kv.2 ∧ is_function (heap w) kv.2 = false) props →
  ∃ l' w',
    assignUniqueKeysToFormatXMLElementFnArgument (VRef l) w = Normal (VRef l') w'
    ∧ l' ≠ l
    ∧ heap w !! l' = None
    ∧ heap w' !! l' = Some (CObject props)
    ∧ heap w ⊆ heap w'
    ∧ log w' = log w.
Proof.
  intros Hl Hnd Hproto Hprops.
  destruct (assignUniqueKeys_object_run w l props Hl Hnd Hproto)
    as (l' & props' & w' & Hrun & Hl' & Hcell & Hkeys & HF & Hsub & Hlog).
  { eapply Forall_impl; [exact Hprops|]. by intros kv [Ha _]. }
  exists l', w'. split_and!; try done.
  { intros ->. by rewrite Hl in Hl'. }
  rewrite Hcell. do 2 f_equal. apply props_eq_of_keys_values; [done|].
  eapply Forall2_impl_Forall; [exact Hprops | exact HF |].
  intros kv kv' [_ Hfn]. unfold key_assigned. by rewrite Hfn.
Qed.

(** ** The rendering library keys the parts *)

Lemma keyed_part_weaken child_key h h' h'' i v v' :
  h' ⊆ h'' → keyed_part child_key h h' i v v' → keyed_part child_key h h'' i v v'.
Proof.
  intros Hsub. destruct v as [| | | | |l]; try done.
  intros (l' & -> & Hl' & Hcell). exists l'. split_and!; [done | done |].
  by eapply lookup_weaken.
Qed.

Lemma fresh_in_smaller (h0 : gmap loc cell) w l :
  h0 ⊆ heap w → heap w !! l = None → h0 !! l = None.
Proof.
  intros Hsub Hl. destruct (h0 !! l) as [c|] eqn:Hc; [|done].
  by rewrite (lookup_weaken _ _ _ _ Hc Hsub) in Hl.
Qed.

Lemma key_child_run h0 i v w :
  h0 ⊆ heap w → is_part h0 v →
  ∃ v' w',
    key_child i v w = Normal v' w'
    ∧ heap w ⊆ heap w'
    ∧ log w' = log w
    ∧ keyed_part child_key_of h0 (heap w') i v v'.
Proof.
  intros Hsub Hv. unfold key_child. rewrite (bind_normal _ _ _ _ _ (read_run _ _)).
  destruct v as [| | | |s|l]; try done.
  - by exists (VString s), w.
  - destruct Hv as [props Hl].
    rewrite (lookup_weaken _ _ _ _ Hl Hsub).
    destruct (alloc_effects
                (CObject (set_prop props "key"
                            (VString (child_key_of (default VUndefined (assoc "key" props)) i))))
                w) as (l' & w' & Hrun & Hl' & Hsub' & Hcell & Hlog).
    exists (VRef l'), w'. split_and!; [done | done | done |].
    exists l'. split_and!; [done | by eapply fresh_in_smaller |].
    unfold get_own. by rewrite (own_props_object _ _ _ Hl).
Qed.

Lemma key_children_run h0 elems : ∀ i w,
  h0 ⊆ heap w → Forall (is_part h0) elems →
  ∃ elems' w',
    key_children i elems w = Normal elems' w'
    ∧ heap w ⊆ heap w'
    ∧ log w' = log w
    ∧ length elems' = length elems
    ∧ ∀ j v v', elems !! j = Some v → elems' !! j = Some v' →
        keyed_part child_key_of h0 (heap w') (i + j) v v'.
Proof.
  induction elems as [|v elems IH]; intros i w Hsub HF; simpl.
  - by exists [], w.
  - apply Forall_cons in HF as [Hv HF].
    destruct (key_child_run h0 i v w Hsub Hv) as (v1 & w1 & Hrun1 & Hsub1 & Hlog1 & Hk1).
    destruct (IH (S i) w1) as (elems' & w' & Hrun' & Hsub' & Hlog' & Hlen & Hks);
      [by etrans | done |].
    exists (v1 :: elems'), w'.
    rewrite (bind_normal _ _ _ _ _ Hrun1), (bind_normal _ _ _ _ _ Hrun').
    split_and!; [done | by etrans | congruence | simpl; by rewrite Hlen |].
    intros [|j] u u' Hu Hu'; simpl in Hu, Hu'.
    + injection Hu as <-. injection Hu' as <-. rewrite Nat.add_0_r.
      by eapply keyed_part_weaken.
    + replace (i + S j)%nat with (S i + j)%nat by lia. by eapply Hks.
Qed.

Lemma Children_toArray_keys_parts : keys_parts Children_toArray.
Proof.
  exists child_key_of. intros l elems w Hl HF.
  unfold Children_toArray. rewrite (bind_normal _ _ _ _ _ (read_run _ _)). rewrite Hl.
  destruct (key_children_run (heap w) elems 0 w) as (elems' & w1 & Hrun & Hsub & Hlog & Hlen & Hks);
    [done | done |].
  rewrite (bind_normal _ _ _ _ _ Hrun).
  destruct (alloc_effects (CArray elems') w1) as (l' & w' & Hrun' & Hl' & Hsub' & Hcell & Hlog').
  exists l', elems', w'. split_and!; [done | by eapply fresh_in_smaller | done | done | | by etrans | congruence].
  intros i v v' Hi Hi'. eapply keyed_part_weaken; [exact Hsub'|]. by eapply (Hks i).
Qed.

Section FormatMessagePipeline.
Context {imports : Collaborators}.

(** C9. For every [formatMessage] call, with a rendering library whose
    [React.Children.toArray] keys the parts of an array: the substitution
    values are first passed through key assignment, which always
    returns; falsy values are handed on as they are, any other values as
    a new object, and for a map (without an own property named
    [__proto__]) that object is a map with the same keys in which every
    function is replaced by a new key-assigning wrapper and every other
    value is kept.  The core formatter is then called with these values.
    When its result is an array of parts, the call returns a new array of
    as many parts, in which every fragment is a new element with a key
    derived from its own key and its position and every string stays that
    string; when its result is not an array, the call returns that result
    unchanged, so a string stays a string; and what the core formatter
    throws is thrown. *)
Theorem formatMessage_pipeline (config formatters descriptor rawValues : value)
    (w : world) :
  keys_parts React_Children_toArray →
  ∃ child_key values w1,
    assignUniqueKeysToFormatXMLElementFnArgument rawValues w = Normal values w1
    ∧ (if truthy rawValues
       then ∃ l', values = VRef l' ∧ heap w !! l' = None
       else values = rawValues ∧ w1 = w)
    ∧ (∀ l props,
         rawValues = VRef l →
         heap w !! l = Some (CObject props) →
         NoDup props.*1 →
         "__proto__" ∉ props.*1 →
         Forall (λ kv, allocated (heap w) kv.2) props →
         ∃ l' props',
           values = VRef l'
           ∧ heap w1 !! l' = Some (CObject props')
           ∧ props'.*1 = props.*1
           ∧ Forall2 (λ kv kv', key_assigned (heap w) (heap w1) kv.2 kv'.2) props props')
    ∧ match coreFormatMessage config formatters descriptor values w1 with
      | Normal chunks w2 =>
          formatMessage config formatters descriptor rawValues w =
            (if is_array (heap w2) chunks
             then React_Children_toArray chunks w2
             else Normal chunks w2)
          ∧ ∀ l elems,
              chunks = VRef l →
              heap w2 !! l = Some (CArray elems) →
              Forall (is_part (heap w2)) elems →
              ∃ l' elems' w3,
                formatMessage config formatters descriptor rawValues w
                  = Normal (VRef l') w3
                ∧ heap w2 !! l' = None
                ∧ heap w3 !! l' = Some (CArray elems')
                ∧ length elems' = length elems
                ∧ (∀ i v v', elems !! i = Some v → elems' !! i = Some v' →
                     keyed_part child_key (heap w2) (heap w3) i v v')
                ∧ heap w2 ⊆ heap w3
                ∧ log w3 = log w2
      | Thrown e w2 =>
          formatMessage config formatters descriptor rawValues w = Thrown e w2
      end.
Proof.
  intros [child_key Hkeys].
  assert (∃ values w1,
            assignUniqueKeysToFormatXMLElementFnArgument rawValues w = Normal values w1
            ∧ (if truthy rawValues
               then ∃ l', values = VRef l' ∧ heap w !! l' = None
               else values = rawValues ∧ w1 = w))
    as (values & w1 & Hrun & Hvalues).
  { destruct (truthy rawValues) eqn:Ht.
    - destruct (assignUniqueKeys_truthy_run rawValues w Ht) as (la & w1 & Hrun & Hla & _).
      exists (VRef la), w1. split; [done|]. by exists la.
    - exists rawValues, w. split; [|done].
      unfold assignUniqueKeysToFormatXMLElementFnArgument. by rewrite Ht. }
  exists child_key, values, w1. split_and!; [done | done | |].
  - intros l props -> Hl Hnd Hproto Hprops.
    destruct (assignUniqueKeys_object_run w l props Hl Hnd Hproto Hprops)
      as (l' & props' & w' & Hrun' & _ & Hcell & Hk & HF & _).
    rewrite Hrun' in Hrun. injection Hrun as <- <-.
    by exists l', props'.
  - assert (formatMessage config formatters descriptor rawValues w =
            match coreFormatMessage config formatters descriptor values w1 with
            | Normal chunks w2 =>
                if is_array (heap w2) chunks
                then React_Children_toArray chunks w2
                else Normal chunks w2
            | Thrown e w2 => Thrown e w2
            end) as Hfm.
    { unfold formatMessage. rewrite (bind_normal _ _ _ _ _ Hrun), bind_run.
      destruct (coreFormatMessage config formatters descriptor values w1) as [chunks w2|e w2];
        [|done].
      rewrite bind_run. simpl. by destruct (is_array (heap w2) chunks). }
    destruct (coreFormatMessage config formatters descriptor values w1) as [chunks w2|e w2];
      [|done].
    split; [done|].
    intros l elems -> Hl Hparts.
    destruct (Hkeys l elems w2 Hl Hparts)
      as (l' & elems' & w3 & Hrun3 & Hl' & Hcell & Hlen & Hks & Hsub & Hlog).
    exists l', elems', w3. split_and!; try done.
    rewrite Hfm. simpl. by rewrite Hl.
Qed.

End FormatMessagePipeline.

Section FormatMessageValues.
Context {imports : Collaborators}.


End FormatMessageValues.

Section NullishConfiguration.
Context {imports : Collaborators}.

(** X15. Given [undefined] or [null] for a configuration, the normalizer
    and [createIntl] both throw a [TypeError] before anything else
    happens: no object is made, the formatters are not made and nothing
    is logged. *)
Theorem nullish_configuration_raises (config cache : value) (w : world) :
  nullish config = true →
  processIntlConfig config w = Thrown TypeError w
  ∧ createIntl config cache w = Thrown TypeError w.
Proof.
  intros Hn. split; [|by apply createIntl_nullish].
  unfold processIntlConfig, get. by rewrite bind_run, Hn.
Qed.

End NullishConfiguration.

(** ** The theorems at concrete inputs *)

Lemma processIntlConfig_recognized_fields_witness :
  nullish (VRef 1) = false
  ∧ ∃ l, heap store_without_locales !! l = None
      ∧ processIntlConfig (VRef 1) store_without_locales =
          Normal (VRef l)
            (World (<[l := CObject
                      [("locale", VUndefined); ("timeZone", VUndefined);
                       ("formats", VUndefined); ("textComponent", VUndefined);
                       ("messages", VUndefined); ("defaultLocale", VUndefined);
                       ("defaultFormats", VUndefined); ("onError", VRef 2);
                       ("wrapRichTextChunksInFragment", VUndefined);
                       ("defaultRichTextElements", VUndefined)]]>
                     (heap store_without_locales)) []).
Proof.
  split; [reflexivity|].
  destruct (processIntlConfig_recognized_fields store_without_locales (VRef 1) eq_refl)
    as (l & Hl & Hrun & _).
  exists l. split; [exact Hl | exact Hrun].
Defined.

Lemma processIntlConfig_idempotent_witness :
  nullish (VRef 1) = false
  ∧ ∃ c1 w1 c2 w2,
      processIntlConfig (VRef 1) store_without_locales = Normal c1 w1
      ∧ processIntlConfig c1 w1 = Normal c2 w2
      ∧ shallow_equal (heap w2) c2 c1
      ∧ shallowEquals c2 c1 w2 = Normal true w2
      ∧ shallowEquals c1 c2 w2 = Normal true w2.
Proof.
  split; [reflexivity|].
  apply (processIntlConfig_idempotent store_without_locales (VRef 1)). reflexivity.
Defined.

Lemma assignUniqueKeys_of_map_witness :
  heap store_with_values !! 1%positive
    = Some (CObject [("b", VRef 2); ("name", VString "Ann")])
  ∧ NoDup ["b"; "name"]
  ∧ ∃ l' props' w',
      assignUniqueKeysToFormatXMLElementFnArgument (VRef 1) store_with_values
        = Normal (VRef l') w'
      ∧ heap store_with_values !! l' = None
      ∧ heap w' !! l' = Some (CObject props')
      ∧ props'.*1 = ["b"; "name"]
      ∧ Forall2 (λ kv kv', key_assigned (heap store_with_values) (heap w') kv.2 kv'.2)
          [("b", VRef 2); ("name", VString "Ann")] props'
      ∧ heap w' !! 1%positive = Some (CObject [("b", VRef 2); ("name", VString "Ann")])
      ∧ heap store_with_values ⊆ heap w'
      ∧ log w' = [].
Proof.
  assert (NoDup ["b"; "name"]) as Hnd.
  { apply (bool_decide_unpack (NoDup ["b"; "name"])). vm_compute. exact I. }
  split; [reflexivity|]. split; [exact Hnd|].
  apply (assignUniqueKeys_of_map store_with_values 1
           [("b", VRef 2); ("name", VString "Ann")]).
  - reflexivity.
  - exact Hnd.
  - apply (bool_decide_unpack (_ ∉ _)). vm_compute. exact I.
  - repeat constructor. simpl. vm_compute. eexists. reflexivity.
Defined.

Lemma getDerivedStateFromProps_gate_witness :
  nullish (VRef 1) = false
  ∧ nullish (VRef 3) = false
  ∧ NoDup (own_keys (heap store_with_state)
             (get_own (heap store_with_state) (VRef 3) "prevConfig"))
  ∧ ∃ l, heap store_with_state !! l = None
      ∧ processIntlConfig (VRef 1) store_with_state =
          Normal (VRef l)
            (World (<[l := CObject (normalized (heap store_with_state) (VRef 1))]>
                      (heap store_with_state)) []).
Proof.
  assert (NoDup (own_keys (heap store_with_state)
                   (get_own (heap store_with_state) (VRef 3) "prevConfig"))) as Hnd.
  { apply (bool_decide_unpack (NoDup _)). vm_compute. exact I. }
  split; [reflexivity|]. split; [reflexivity|]. split; [exact Hnd|].
  destruct (getDerivedStateFromProps_gate (imports := sample_imports)
              (VRef 1) (VRef 3) store_with_state eq_refl eq_refl Hnd)
    as (l & Hl & Hrun & _).
  exists l. split; [exact Hl | exact Hrun].
Defined.

Lemma createIntl_missing_data_advisory_witness :
  nullish (VRef 1) = false
  ∧ truthy (resolved (imports := sample_imports)
              (heap store_with_unsupported_locale) (VRef 1) "locale") = true
  ∧ CanonicalizeLocaleList (Collaborators := sample_imports) (VString "tlh") = inr ["tlh"]
  ∧ NumberFormat_SupportedLocales (Collaborators := sample_imports) ["tlh"] = []
  ∧ ∃ ls S w',
      createIntl (imports := sample_imports) (VRef 1) VUndefined
        store_with_unsupported_locale = Normal (VRef ls) w'
      ∧ heap w' !! ls = Some (CObject S)
      ∧ assoc "locale" S = Some (VString "tlh")
      ∧ log w' =
          [CreateFormatters VUndefined;
           OnError (VRef 2)
             (MissingDataError
                (missing_data_message (imports := sample_imports)
                   "NumberFormat" (VString "tlh") (VString "en")))].
Proof.
  split; [reflexivity|]. split; [reflexivity|]. split; [reflexivity|].
  split; [reflexivity|].
  apply (createIntl_missing_data_advisory (imports := sample_imports)
           (VRef 1) VUndefined store_with_unsupported_locale ["tlh"]).
  - reflexivity.
  - reflexivity.
  - reflexivity.
  - reflexivity.
  - left. reflexivity.
Defined.

(** A provider made with the props at 1, then updated with the same
    props, with the props at 2, and with the props at 2 again: the shape
    is built twice, at instantiation and at the change, both times with
    the cache made at instantiation, which the final state still holds. *)
Example IntlProvider_life_two_builds :
  ∃ st w',
    IntlProvider_life (imports := sample_imports)
      (VRef 1) [VRef 1; VRef 2; VRef 2] store_with_two_props = Normal st w'
    ∧ log w' = [CreateFormatters (VRef 3); CreateFormatters (VRef 3)]
    ∧ get_own (heap w') st "cache" = VRef 3
    ∧ get_own (heap w') (get_own (heap w') st "intl") "locale" = VString "fr".
Proof. eexists _, _. split; [by vm_compute|]. by vm_compute. Qed.

(** Key assignment on [{b: f, name: 'Ann'}]: the result, at the new
    location 3, has a new wrapper of [f] under [b] and the string under
    [name]; the input at location 1 is as it was. *)
Example assignUniqueKeys_sample :
  ∃ w',
    assignUniqueKeysToFormatXMLElementFnArgument (VRef 1) store_with_values
      = Normal (VRef 3) w'
    ∧ heap w' !! 3%positive = Some (CObject [("b", VRef 4); ("name", VString "Ann")])
    ∧ heap w' !! 4%positive = Some (CFunction (KeyedParts (VRef 2)))
    ∧ heap w' !! 1%positive = Some (CObject [("b", VRef 2); ("name", VString "Ann")]).
Proof. eexists. split; [by vm_compute|]. by vm_compute. Qed.

(** A malformed language tag makes [createIntl] throw what the platform
    throws. *)
Example createIntl_malformed_tag :
  ∃ w',
    createIntl (imports := sample_imports) (VRef 1) VUndefined
      (World (<[1%positive := CObject [("locale", VString "not a locale")]]> ∅) [])
    = Thrown RangeError w'.
Proof. eexists. by vm_compute. Qed.

(** The ten recognized fields, one case each. *)
Ltac each_recognized_field k Hk :=
  unfold recognized_fields in Hk;
  repeat (apply elem_of_cons in Hk as [->|Hk]; [reflexivity|]);
  by apply elem_of_nil in Hk.

Lemma getDerivedStateFromProps_null_iff_same_fields_witness :
  nullish (VRef 2) = false
  ∧ ∃ w',
      getDerivedStateFromProps (imports := sample_imports) (VRef 2) (VRef 3)
        store_with_settled_state = Normal VNull w'.
Proof.
  split; [reflexivity|].
  apply (getDerivedStateFromProps_null_iff_same_fields (imports := sample_imports)
           (VRef 2) (VRef 3)
           ((λ k, (k, if String.eqb k "locale" then VString "en" else VUndefined))
              <$> recognized_fields)
           store_with_settled_state).
  - reflexivity.
  - exists 3%positive, (VRef 4), VUndefined, 5%positive.
    split; [reflexivity|]. split; [reflexivity|]. split; reflexivity.
  - intros k Hk. each_recognized_field k Hk.
Defined.

Lemma update_with_same_fields_keeps_state_witness :
  ∃ w2,
    applyDerivedState (imports := sample_imports) (VRef 2) (VRef 3)
      (outcome_world
         (applyDerivedState (imports := sample_imports) (VRef 1) (VRef 3)
            store_with_settled_state)) = Normal (VRef 3) w2
    ∧ log w2 = [].
Proof.
  apply (update_with_same_fields_keeps_state (imports := sample_imports)
           (VRef 1) (VRef 2) (VRef 3)
           ((λ k, (k, if String.eqb k "locale" then VString "en" else VUndefined))
              <$> recognized_fields)
           store_with_settled_state).
  - exists 3%positive, (VRef 4), VUndefined, 5%positive.
    split; [reflexivity|]. split; [reflexivity|]. split; reflexivity.
  - reflexivity.
  - vm_compute. eexists. reflexivity.
  - intros k Hk. each_recognized_field k Hk.
  - vm_compute. reflexivity.
Defined.

Lemma provider_rerender_builds_once_witness :
  ∃ lcache diagnostics,
    heap store_with_settled_state !! lcache = None
    ∧ log (outcome_world
             (IntlProvider_life (imports := sample_imports) (VRef 1) [VRef 2; VRef 1]
                store_with_settled_state)) =
        CreateFormatters (VRef lcache) :: diagnostics
    ∧ (length diagnostics ≤ 1)%nat
    ∧ ∀ c, CreateFormatters c ∉ diagnostics.
Proof.
  apply (provider_rerender_builds_once (imports := sample_imports)
           (VRef 1) [VRef 2; VRef 1] store_with_settled_state).
  - reflexivity.
  - vm_compute. eexists. reflexivity.
  - repeat constructor.
    + vm_compute. eexists. reflexivity.
    + intros k Hk. each_recognized_field k Hk.
    + vm_compute. eexists. reflexivity.
Defined.

Lemma createIntl_malformed_locale_throws_witness :
  nullish (VRef 1) = false
  ∧ CanonicalizeLocaleList (Collaborators := sample_imports) (VString "not a locale")
      = inl RangeError
  ∧ ∃ w',
      createIntl (imports := sample_imports) (VRef 1) VUndefined
        store_with_malformed_locale = Thrown RangeError w'
      ∧ heap store_with_malformed_locale ⊆ heap w'
      ∧ log w' = [CreateFormatters VUndefined].
Proof.
  split; [reflexivity|]. split; [reflexivity|].
  apply (createIntl_malformed_locale_throws (imports := sample_imports)
           (VRef 1) VUndefined store_with_malformed_locale RangeError).
  - reflexivity.
  - reflexivity.
  - reflexivity.
Defined.

Lemma createIntl_calls_witness :
  nullish (VRef 1) = false
  ∧ ∃ diagnostics,
      log (outcome_world
             (createIntl (imports := sample_imports) (VRef 1) VUndefined
                store_with_unsupported_locale)) =
        CreateFormatters VUndefined :: diagnostics
      ∧ (length diagnostics ≤ 1)%nat
      ∧ ∀ ev, ev ∈ diagnostics → ∃ err, ev = OnError (VRef 2) err.
Proof.
  split; [reflexivity|].
  apply (createIntl_calls (imports := sample_imports)
           (VRef 1) VUndefined store_with_unsupported_locale).
  reflexivity.
Defined.

Lemma createIntl_supported_locale_silent_witness :
  nullish (VRef 1) = false
  ∧ CanonicalizeLocaleList (Collaborators := sample_imports) (VString "fr") = inr ["fr"]
  ∧ ∃ ls S w',
      createIntl (imports := sample_imports) (VRef 1) VUndefined
        store_with_supported_locale = Normal (VRef ls) w'
      ∧ heap w' !! ls = Some (CObject S)
      ∧ assoc "locale" S = Some (VString "fr")
      ∧ log w' = [CreateFormatters VUndefined].
Proof.
  split; [reflexivity|]. split; [reflexivity|].
  apply (createIntl_supported_locale_silent (imports := sample_imports)
           (VRef 1) VUndefined store_with_supported_locale ["fr"]).
  - reflexivity.
  - reflexivity.
  - reflexivity.
  - intros H. vm_compute in H. discriminate H.
  - intros H. vm_compute in H. discriminate H.
Defined.

Lemma createIntl_preserves_store_witness :
  heap (outcome_world
          (createIntl (imports := sample_imports) (VRef 1) VUndefined
             store_without_locales)) !! 1%positive =
    Some (CObject [("locale", VUndefined); ("defaultLocale", VUndefined);
                   ("onError", VRef 2)]).
Proof.
  apply (createIntl_preserves_store (imports := sample_imports)
           (VRef 1) VUndefined store_without_locales 1%positive).
  reflexivity.
Defined.

Lemma createIntl_field_precedence_witness :
  nullish (VRef 1) = false
  ∧ ∃ ls S w',
      createIntl (imports := sample_imports) (VRef 1) VUndefined
        store_with_unsupported_locale = Normal (VRef ls) w'
      ∧ heap w' !! ls = Some (CObject S)
      ∧ default VUndefined (assoc "defaultLocale" S) = VString "en"
      ∧ default VUndefined (assoc "timeZone" S) = VUndefined.
Proof.
  split; [reflexivity|].
  destruct (createIntl_field_precedence (imports := sample_imports)
              (VRef 1) VUndefined store_with_unsupported_locale ["tlh"])
    as (ls & S & w' & Hrun & HS & Hfields).
  - reflexivity.
  - apply (bool_decide_unpack (NoDup _)). vm_compute. exact I.
  - intros _. reflexivity.
  - exists ls, S, w'. split; [exact Hrun|]. split; [exact HS|]. split.
    + apply (Hfields "defaultLocale").
      * apply (bool_decide_unpack (_ ∉ _)). vm_compute. exact I.
      * discriminate.
      * discriminate.
    + apply (Hfields "timeZone").
      * apply (bool_decide_unpack (_ ∉ _)). vm_compute. exact I.
      * discriminate.
      * discriminate.
Defined.


Lemma createIntl_rich_text_elements_key_assigned_witness :
  nullish (VRef 1) = false
  ∧ ∃ ls S w' l' props',
      createIntl (imports := sample_imports) (VRef 1) VUndefined
        store_with_rich_text_elements = Normal (VRef ls) w'
      ∧ heap w' !! ls = Some (CObject S)
      ∧ assoc "defaultRichTextElements" S = Some (VRef l')
      ∧ heap store_with_rich_text_elements !! l' = None
      ∧ heap w' !! l' = Some (CObject props')
      ∧ props'.*1 = ["b"]
      ∧ Forall2 (λ kv kv', key_assigned (heap store_with_rich_text_elements) (heap w')
                             kv.2 kv'.2) [("b", VRef 3)] props'
      ∧ heap w' !! 2%positive = Some (CObject [("b", VRef 3)]).
Proof.
  split; [reflexivity|].
  apply (createIntl_rich_text_elements_key_assigned (imports := sample_imports)
           (VRef 1) VUndefined store_with_rich_text_elements ["en"] 2%positive
           [("b", VRef 3)]).
  - reflexivity.
  - intros _. reflexivity.
  - reflexivity.
  - reflexivity.
  - apply (bool_decide_unpack (NoDup _)). vm_compute. exact I.
  - apply (bool_decide_unpack (_ ∉ _)). vm_compute. exact I.
  - repeat constructor. vm_compute. eexists. reflexivity.
Defined.

Lemma assignUniqueKeys_without_functions_copies_witness :
  heap store_with_plain_values !! 1%positive
    = Some (CObject [("name", VString "Ann"); ("count", VNumber 3)])
  ∧ ∃ l' w',
      assignUniqueKeysToFormatXMLElementFnArgument (VRef 1) store_with_plain_values
        = Normal (VRef l') w'
      ∧ l' ≠ 1%positive
      ∧ heap store_with_plain_values !! l' = None
      ∧ heap w' !! l' = Some (CObject [("name", VString "Ann"); ("count", VNumber 3)])
      ∧ heap store_with_plain_values ⊆ heap w'
      ∧ log w' = [].
Proof.
  split; [reflexivity|].
  apply (assignUniqueKeys_without_functions_copies store_with_plain_values 1
           [("name", VString "Ann"); ("count", VNumber 3)]).
  - reflexivity.
  - apply (bool_decide_unpack (NoDup _)). vm_compute. exact I.
  - apply (bool_decide_unpack (_ ∉ _)). vm_compute. exact I.
  - repeat constructor.
Defined.

Lemma createIntl_of_normalized_ignores_defaults_witness :
  nullish (VRef 1) = false
  ∧ ∃ c w1 ls S w',
      processIntlConfig (VRef 1) store_without_onError = Normal c w1
      ∧ createIntl (imports := sample_imports) c VUndefined w1 = Normal (VRef ls) w'
      ∧ heap w' !! ls = Some (CObject S)
      ∧ assoc "locale" S = Some (VString "fr")
      ∧ assoc "timeZone" S = Some VUndefined.
Proof.
  split; [reflexivity|].
  destruct (createIntl_of_normalized_ignores_defaults (imports := sample_imports)
              (VRef 1) VUndefined store_without_onError [])
    as (c & w1 & ls & S & w' & Hnorm & Hrun & HS & Hloc & Hfields).
  - reflexivity.
  - intros H. vm_compute in H. discriminate H.
  - exists c, w1, ls, S, w'. split; [exact Hnorm|]. split; [exact Hrun|].
    split; [exact HS|]. split; [exact Hloc|].
    apply (Hfields "timeZone").
    + apply (bool_decide_unpack (_ ∈ _)). vm_compute. exact I.
    + discriminate.
    + discriminate.
Defined.

Lemma nullish_configuration_raises_witness :
  processIntlConfig VUndefined store_without_locales
    = Thrown TypeError store_without_locales
  ∧ createIntl (imports := sample_imports) VNull VUndefined store_without_locales
    = Thrown TypeError store_without_locales.
Proof.
  split.
  - apply (nullish_configuration_raises (imports := sample_imports)
             VUndefined VUndefined store_without_locales). reflexivity.
  - apply (nullish_configuration_raises (imports := sample_imports)
             VNull VUndefined store_without_locales). reflexivity.
Defined.



Lemma formatMessage_pipeline_witness :
  keys_parts (React_Children_toArray (Collaborators := shipped_imports))
  ∧ ∃ l' values w1,
      assignUniqueKeysToFormatXMLElementFnArgument (VRef 3) store_with_shipped_defaults
        = Normal values w1
      ∧ values = VRef l'
      ∧ heap store_with_shipped_defaults !! l' = None.
Proof.
  split; [exact Children_toArray_keys_parts|].
  destruct (formatMessage_pipeline (imports := shipped_imports)
              VUndefined VUndefined VUndefined (VRef 3) store_with_shipped_defaults
              Children_toArray_keys_parts)
    as (child_key & values & w1 & Hrun & (l' & Hvalues & Hl') & _).
  exists l', values, w1. split; [exact Hrun|]. split; [exact Hvalues | exact Hl'].
Defined.

(** [formatMessage] with the values [{b: f}], an engine that answers with
    the parts of [Hello, <b/>] and a rendering library that keys the
    parts: the result is a new array holding the string and a new
    fragment whose key is its position. *)
Example formatMessage_keys_hello_parts :
  ∃ l' lf w3,
    formatMessage (imports := shipped_imports) VUndefined VUndefined VUndefined (VRef 3)
      store_with_shipped_defaults = Normal (VRef l') w3
    ∧ heap w3 !! l' = Some (CArray [VString "Hello, "; VRef lf])
    ∧ heap w3 !! lf = Some (CObject [("type", VString "b"); ("key", VString ".1")]).
Proof. eexists _, _, _. split; [by vm_compute|]. split; by vm_compute. Qed.
